(** * fiora: administration routes of the chat server

    A shallow embedding of [src/server/routes/system.ts]: the seal (temporary
    ban) handlers [sealUser], [sealIp], [sealUserOnlineIp] and [getSealList],
    and the Baidu token cache [getBaiduToken].

    A handler is a function from the state of the process to an outcome and
    the state it leaves behind. An outcome is either the value the handler
    returns or the message of the [AssertionError] thrown by a failing
    [assert]; the state reached at the point of the throw is kept, as in
    JavaScript. An [await] is a sequencing point only: each handler is run
    to completion on its own. *)

From stdpp Require Import gmap strings list.
From Stdlib Require Import ZArith.

Local Open Scope string_scope.

(** ** Handlers: state passing with assertion failures *)

Inductive Outcome (A : Type) : Type :=
| Returned (value : A)
| Thrown (message : string).
Arguments Returned {A} value.
Arguments Thrown {A} message.

Definition Handler (S A : Type) : Type := S → Outcome A * S.

#[global] Instance Handler_ret {S} : MRet (Handler S) :=
  λ A a s, (Returned a, s).

#[global] Instance Handler_bind {S} : MBind (Handler S) :=
  λ A B k m s,
    match m s with
    | (Returned a, s') => k a s'
    | (Thrown msg, s') => (Thrown msg, s')
    end.

(** [assert(cond, message)] of Node's [assert] module. *)
Definition assert {S} (cond : bool) (message : string) : Handler S unit :=
  λ s, if cond then (Returned tt, s) else (Thrown message, s).

(** A [throw]; also [assert(value, message)] on a value that is [null]. *)
Definition throw {S A} (message : string) : Handler S A :=
  λ s, (Thrown message, s).

Definition gets {S A} (f : S → A) : Handler S A := λ s, (Returned (f s), s).
Definition modify {S} (f : S → S) : Handler S unit := λ s, (Returned tt, f s).

(** [list.forEach(f)] where the callback updates a variable [acc] of the
    enclosing function. *)
Fixpoint forEach {S A B} (f : B → A → Handler S B) (l : list A) (acc : B)
  : Handler S B :=
  match l with
  | [] => mret acc
  | x :: l' => acc' ← f acc x; forEach f l' acc'
  end.

(** Truthiness of a JavaScript string: every string but the empty one. *)
Definition truthy (s : string) : bool := negb (s =? "").

Definition outcome {S A} (r : Outcome A * S) : Outcome A := r.1.
Definition final {S A} (r : Outcome A * S) : S := r.2.

(** ** The state of the process *)

(** Modelled from the spec: the enumeration [MemoryDataStorageKey] of
    [server/memoryData], which is not among the sources; the two namespaces
    the handlers name. *)
Inductive MemoryDataStorageKey : Type := SealUserList | SealIpList.

(** A callback handed to [setTimeout]. Every callback of the file has the
    form [() => deleteMemoryData(key, value)]. *)
Record Timer : Type := mkTimer {
  fireAt : Z;
  timerKey : MemoryDataStorageKey;
  timerValue : string
}.

(** Documents of the [User] and [Socket] collections, with the fields the
    handlers read. *)
Record User : Type := mkUser { _id : string; username : string }.
Record Socket : Type := mkSocket { ip : string; user : string }.

(** The state the sealing handlers run in: the two seal lists of the memory
    data module, the callbacks queued by [setTimeout], the clock, and the two
    collections of the database. *)
Record World : Type := mkWorld {
  sealUserList : gset string;
  sealIpList : gset string;
  timers : list Timer;
  clock : Z;
  userCollection : list User;
  socketCollection : list Socket
}.

#[global] Instance MemoryDataStorageKey_eq_dec : EqDecision MemoryDataStorageKey.
Proof. solve_decision. Defined.
#[global] Instance Timer_eq_dec : EqDecision Timer.
Proof. solve_decision. Defined.

(** ** The memory data module *)

Module MemoryData.

(** Modelled from the spec: [server/memoryData] is not among the sources.
    The TTL store of the spec maps a namespace to a set of keys;
    [getMemoryData] is its [list], a snapshot of the key set. *)
Definition getMemoryData (key : MemoryDataStorageKey) (w : World) : gset string :=
  match key with
  | SealUserList => sealUserList w
  | SealIpList => sealIpList w
  end.

Definition setMemoryData (key : MemoryDataStorageKey) (s : gset string) (w : World)
  : World :=
  match key with
  | SealUserList =>
      mkWorld s (sealIpList w) (timers w) (clock w)
              (userCollection w) (socketCollection w)
  | SealIpList =>
      mkWorld (sealUserList w) s (timers w) (clock w)
              (userCollection w) (socketCollection w)
  end.

(** Modelled from the spec: [exists(namespace, key)], a pure read. *)
Definition existMemoryData (key : MemoryDataStorageKey) (value : string) (w : World)
  : bool :=
  bool_decide (value ∈ getMemoryData key w).

(** Modelled from the spec: the recording half of [insert(namespace, key)];
    the handlers arm the removal themselves with [setTimeout]. *)
Definition addMemoryData (key : MemoryDataStorageKey) (value : string) (w : World)
  : World :=
  setMemoryData key ({[value]} ∪ getMemoryData key w) w.

(** Modelled from the spec: [remove(namespace, key)], idempotent; removing
    a key that is not there is a no-op. *)
Definition deleteMemoryData (key : MemoryDataStorageKey) (value : string) (w : World)
  : World :=
  setMemoryData key (getMemoryData key w ∖ {[value]}) w.

End MemoryData.
Import MemoryData.

(** ** Timers *)

(** [setTimeout(() => deleteMemoryData(key, value), delay)]: the callback is
    queued to run [delay] milliseconds after the present instant. *)
Definition setTimeout (key : MemoryDataStorageKey) (value : string) (delay : Z)
  (w : World) : World :=
  mkWorld (sealUserList w) (sealIpList w)
          (timers w ++ [mkTimer (clock w + delay) key value]) (clock w)
          (userCollection w) (socketCollection w).

Definition due (now : Z) (t : Timer) : bool := (fireAt t <=? now)%Z.

Definition fire (w : World) (t : Timer) : World :=
  deleteMemoryData (timerKey t) (timerValue t) w.

(** The timer phase of the event loop at the instant [now]: the callbacks
    whose time has come are run, in the order they were queued, and leave
    the queue. The clock never runs backwards. *)
Definition runTimers (now : Z) (w : World) : World :=
  let w' := foldl fire w (filter (λ t, due now t = true) (timers w)) in
  mkWorld (sealUserList w') (sealIpList w')
          (filter (λ t, due now t = false) (timers w)) (Z.max (clock w) now)
          (userCollection w) (socketCollection w).

(** ** The collections *)

(** [User.findOne({ username })]: the first document with that name, or
    [null]. *)
Definition User_findOne (name : string) (w : World) : option User :=
  List.find (λ u, username u =? name) (userCollection w).

(** [User.find({ _id: { $in: userIds } })]. *)
Definition User_find_in (userIds : list string) (w : World) : list User :=
  List.filter (λ u, bool_decide (_id u ∈ userIds)) (userCollection w).

(** [Socket.find({ user: userId })]. *)
Definition Socket_find (userId : string) (w : World) : list Socket :=
  List.filter (λ s, user s =? userId) (socketCollection w).

(** ** The handlers *)

(** What a handler hands back: an object [{ msg }] or a bare string. *)
Inductive Reply : Type :=
| Msg (msg : string)
| Text (text : string).

(** The result object of [getSealList]. *)
Record SealList : Type := mkSealList { users : list string; ips : list string }.

(** The part of a [KoaContext<T>] the handlers read: the request data and
    the socket of the requester. The data objects of the seal handlers have a
    single string field ([username], [ip], [userId]), which [data] holds. *)
Record KoaContext (T : Type) : Type := mkContext { data : T; socket : Socket }.
Arguments mkContext {T} data socket.
Arguments data {T} _.
Arguments socket {T} _.

Definition CantSealLocalIp : string := "不能封禁内网ip".
Definition CantSealSelf : string := "闲的没事封自己干啥".
Definition IpInSealList : string := "ip已在封禁名单".

Section Routes.

(** The durations [SealUserTimeout] and [SealIpTimeout] of [utils/const],
    in milliseconds; the file is not among the sources, so they are left
    open. *)
Variables SealUserTimeout SealIpTimeout : Z.

Definition sealUser (ctx : KoaContext string) : Handler World Reply :=
  let name := data ctx in
  assert (negb (name =? "")) "username不能为空";;
  found ← gets (User_findOne name);
  match found with
  | None => throw "用户不存在"
  | Some u =>
      let userId := _id u in
      sealed ← gets (existMemoryData SealUserList userId);
      assert (negb sealed) "用户已在封禁名单";;
      modify (addMemoryData SealUserList userId);;
      modify (setTimeout SealUserList userId SealUserTimeout);;
      mret (Msg "ok")
  end.

Definition getSealList : Handler World SealList :=
  sealUsers ← gets (getMemoryData SealUserList);
  sealIps ← gets (getMemoryData SealIpList);
  let userIds := elements sealUsers in
  found ← gets (User_find_in userIds);
  mret (mkSealList (map username found) (elements sealIps)).

Definition sealIp (ctx : KoaContext string) : Handler World Reply :=
  let addr := data ctx in
  assert (negb (addr =? "::1") && negb (addr =? "127.0.0.1")) CantSealLocalIp;;
  assert (negb (addr =? ip (socket ctx))) CantSealSelf;;
  sealed ← gets (existMemoryData SealIpList addr);
  assert (negb sealed) IpInSealList;;
  modify (addMemoryData SealIpList addr);;
  modify (setTimeout SealIpList addr SealIpTimeout);;
  mret (Msg "ok").

(** The callback of the [forEach] in [sealUserOnlineIp]; [errorMessage] is
    the variable of the enclosing function it assigns to. *)
Definition sealOnlineIp (ctx : KoaContext string) (errorMessage addr : string)
  : Handler World string :=
  if (addr =? "::1") || (addr =? "127.0.0.1") then mret CantSealLocalIp
  else if addr =? ip (socket ctx) then mret CantSealSelf
  else
    sealed ← gets (existMemoryData SealIpList addr);
    if negb sealed then
      modify (addMemoryData SealIpList addr);;
      modify (setTimeout SealIpList addr SealIpTimeout);;
      mret errorMessage
    else mret errorMessage.

Definition sealUserOnlineIp (ctx : KoaContext string) : Handler World Reply :=
  let userId := data ctx in
  sockets ← gets (Socket_find userId);
  let ipList := map ip sockets in
  allSealed ← gets (λ w, forallb (λ addr, existMemoryData SealIpList addr w) ipList);
  assert (negb allSealed) IpInSealList;;
  errorMessage ← forEach (sealOnlineIp ctx) ipList "";
  if truthy errorMessage then mret (Text errorMessage) else mret (Msg "ok").

End Routes.


(** ** The Baidu token cache *)

(** The fields of the response of [axios.get] that [getBaiduToken] reads:
    [res.status], [res.data.access_token] and [res.data.expires_in]. *)
Record AxiosResponse : Type := mkResponse {
  status : Z;
  access_token : string;
  expires_in : Z
}.

(** How a request ends: the promise resolves with a response, or rejects. *)
Inductive AxiosResult : Type :=
| Resolved (res : AxiosResponse)
| Rejected (message : string).

(** The answer of the provider to a request: the time it takes, and the
    result. *)
Record Provider : Type := mkProvider { latency : Z; result : AxiosResult }.

(** The module variables [baiduToken] and [lastBaiduTokenTime], the clock
    read by [Date.now()], and the number of requests sent so far. *)
Record TokenCache : Type := mkTokenCache {
  baiduToken : string;
  lastBaiduTokenTime : Z;
  now : Z;
  requests : nat
}.

(** The state when the module is loaded at the instant [t]. *)
Definition loaded (t : Z) : TokenCache := mkTokenCache "" t t 0.

(** [await axios.get(url)]: one request leaves; the handler resumes when the
    answer is there. *)
Definition axios_get (p : Provider) : Handler TokenCache AxiosResponse :=
  λ c,
    let c' := mkTokenCache (baiduToken c) (lastBaiduTokenTime c)
                (now c + latency p) (S (requests c)) in
    match result p with
    | Resolved res => (Returned res, c')
    | Rejected message => (Thrown message, c')
    end.

Definition setToken (token : string) (validUntil : Z) (c : TokenCache) : TokenCache :=
  mkTokenCache token validUntil (now c) (requests c).

(** The object [{ token }]. *)
Record TokenReply : Type := mkTokenReply { token : string }.

Definition getBaiduToken (p : Provider) : Handler TokenCache TokenReply :=
  cached ← gets baiduToken;
  t ← gets now;
  validUntil ← gets lastBaiduTokenTime;
  if truthy cached && (t <? validUntil)%Z then mret (mkTokenReply cached)
  else
    res ← axios_get p;
    assert (status res =? 200)%Z "请求百度token失败";;
    t' ← gets now;
    modify (setToken (access_token res) (t' + (expires_in res - 60 * 60 * 24) * 1000)%Z);;
    fresh ← gets baiduToken;
    mret (mkTokenReply fresh).

(** ** Uploading a file *)

(** [try { body } catch (err) { handle(err.message) }]. *)
Definition tryCatch {S A} (body : Handler S A) (handle : string → Handler S A)
  : Handler S A :=
  λ s, match body s with
       | (Returned a, s') => (Returned a, s')
       | (Thrown message, s') => handle message s'
       end.

(** The fields of [config/server] that [uploadFile] reads. *)
Record ServerConfig : Type := mkConfig {
  qiniuAccessKey : string;
  qiniuBucket : string;
  qiniuUrlPrefix : string
}.

Record UploadFileData : Type := mkUpload { fileName : string; file : string }.

(** What [uploadFile] does to the world outside: the calls of
    [fs.writeFile], each with its path and its content, and the messages of
    the errors handed to [console.error]. *)
Record Disk : Type := mkDisk {
  writes : list (string * string);
  console : list string
}.

(** What [uploadFile] hands back: the object [{ url }] or a bare string. *)
Inductive UploadReply : Type :=
| Url (url : string)
| Failure (text : string).

Section Upload.

(** The configuration of the server, the directory of the module, and
    [path.resolve] of Node, none of which is among the sources. *)
Variable config : ServerConfig.
Variable __dirname : string.
Variable path_resolve : string → string → string.

(** [await promisify(fs.writeFile)(path, content)]; [failure] is the message
    of the error the file system answers with, if it does. *)
Definition fs_writeFile (failure : option string) (path content : string)
  : Handler Disk unit :=
  λ d, let d' := mkDisk (writes d ++ [(path, content)]) (console d) in
       match failure with
       | None => (Returned tt, d')
       | Some message => (Thrown message, d')
       end.

Definition console_error (message : string) : Handler Disk unit :=
  modify (λ d, mkDisk (writes d) (console d ++ [message])).

Definition uploadFile (failure : option string) (ctx : KoaContext UploadFileData)
  : Handler Disk UploadReply :=
  assert ((qiniuAccessKey config =? "")
          || (qiniuBucket config =? "")
          || (qiniuBucket config =? "")
          || (qiniuUrlPrefix config =? ""))
         "已配置七牛, 请使用七牛文件上传";;
  tryCatch
    (fs_writeFile failure
       (path_resolve __dirname ("../../public/" ++ fileName (data ctx)))
       (file (data ctx));;
     mret (Url ("/" ++ fileName (data ctx))))
    (λ message,
       console_error message;;
       mret (Failure ("上传文件失败:" ++ message))).

End Upload.

(** ** Searching expressions *)




(** The pieces the three regular expressions are made of: a character, an
    optional character [c?], a class repeated [[...]+], and a repeated class
    in a capturing group [([...]+)]. *)
Inductive Atom : Type :=
| Lit (c : N)
| OptLit (c : N)
| Plus (class : N → bool)
| PlusGroup (class : N → bool).

(** A match at a position: what the group has captured, if the pattern has
    one, and the rest of the input after the match. *)
Definition Match : Type := option (list N) * list N.

(** [[...]+], greedy: one character of the class, then as many more as
    there are; when what follows in the pattern does not match there, one
    character fewer, and so on. [k] matches what follows. *)
Fixpoint plusK (class : N → bool) (k : list N → option Match) (s : list N)
  : option Match :=
  match s with
  | [] => None
  | c :: s' =>
      if class c then
        match plusK class k s' with
        | Some m => Some m
        | None => k s'
        end
      else None
  end.

(** The same in a capturing group; [taken] is what the group holds so far. *)
Fixpoint plusGroupK (class : N → bool) (k : list N → list N → option Match)
  (taken s : list N) : option Match :=
  match s with
  | [] => None
  | c :: s' =>
      if class c then
        match plusGroupK class k (taken ++ [c])%list s' with
        | Some m => Some m
        | None => k (taken ++ [c])%list s'
        end
      else None
  end.

(** The backtracking matcher: the match of the pattern at the start of [s]
    that the regular expression engine finds first. *)
Fixpoint matchHere (pattern : list Atom) (captured : option (list N)) (s : list N)
  : option Match :=
  match pattern with
  | [] => Some (captured, s)
  | Lit c :: pattern' =>
      match s with
      | x :: s' => if (x =? c)%N then matchHere pattern' captured s' else None
      | [] => None
      end
  | OptLit c :: pattern' =>
      match s with
      | x :: s' =>
          if (x =? c)%N then
            match matchHere pattern' captured s' with
            | Some m => Some m
            | None => matchHere pattern' captured s
            end
          else matchHere pattern' captured s
      | [] => matchHere pattern' captured s
      end
  | Plus class :: pattern' => plusK class (matchHere pattern' captured) s
  | PlusGroup class :: pattern' =>
      plusGroupK class (λ taken, matchHere pattern' (Some taken)) [] s
  end.

(** What [exec] finds: the text matched, the capture, and the rest of the
    input. *)
Record Found : Type := mkFound {
  matched : list N;
  group1 : option (list N);
  after : list N
}.

(** The first match from the left: the pattern is tried at the start of the
    input, then one character further, and so on. *)
Fixpoint regexExec (pattern : list Atom) (s : list N) : option Found :=
  match matchHere pattern None s with
  | Some (captured, rest) =>
      Some (mkFound (take (length s - length rest) s) captured rest)
  | None =>
      match s with
      | [] => None
      | _ :: s' => regexExec pattern s'
      end
  end.

(** [s.match(/pattern/g) || []]: the matches one after the other, each
    search starting where the match before ended, one character further
    after an empty match. The input bounds the number of rounds. *)
Fixpoint matchAllFrom (rounds : nat) (pattern : list Atom) (s : list N)
  : list (list N) :=
  match rounds with
  | O => []
  | S rounds' =>
      match regexExec pattern s with
      | None => []
      | Some found =>
          matched found ::
          match matched found, after found with
          | [], [] => []
          | [], _ :: rest => matchAllFrom rounds' pattern rest
          | _ :: _, rest => matchAllFrom rounds' pattern rest
          end
      end
  end.












Section SearchExpression.

(** [encodeURIComponent], which throws a [URIError] on a string that is not
    well-formed UTF-16; [None] stands for the throw. *)
Variable encodeURIComponent : list N → option (list N).



End SearchExpression.







(** ** Vocabulary of the properties *)

(** The addresses of the live sockets of a user, as [sealUserOnlineIp]
    computes them: [sockets.map((socket) => socket.ip)]. *)
Definition onlineIps (userId : string) (w : World) : list string :=
  map ip (Socket_find userId w).

Definition Loopback (addr : string) : Prop := addr = "::1" ∨ addr = "127.0.0.1".

(** An address [sealUserOnlineIp] will not seal: a loopback address or the
    address of the requester. *)
Definition Barred (ctx : KoaContext string) (addr : string) : Prop :=
  Loopback addr ∨ addr = ip (socket ctx).

#[global] Instance Loopback_dec addr : Decision (Loopback addr).
Proof. unfold Loopback. apply _. Defined.
#[global] Instance Barred_dec ctx addr : Decision (Barred ctx addr).
Proof. unfold Barred. apply _. Defined.

(** The message recorded for a barred address. *)
Definition violation (addr : string) : string :=
  if decide (Loopback addr) then CantSealLocalIp else CantSealSelf.

(** What one round of the [forEach] of [sealUserOnlineIp] does to the
    variable [errorMessage] and to the state. *)
Definition noteViolation (ctx : KoaContext string) (errorMessage addr : string)
  : string :=
  if decide (Barred ctx addr) then violation addr else errorMessage.

Definition sealFresh (SealIpTimeout : Z) (ctx : KoaContext string) (w : World)
  (addr : string) : World :=
  if decide (Barred ctx addr ∨ addr ∈ sealIpList w) then w
  else setTimeout SealIpList addr SealIpTimeout (addMemoryData SealIpList addr w).

(** The queued removals of the entry [value] of the list [key]. *)
Definition pending (key : MemoryDataStorageKey) (value : string) (w : World)
  : list Timer :=
  filter (λ t, timerKey t = key ∧ timerValue t = value) (timers w).

(** Every entry of a seal list has exactly one queued removal, and nothing
    else has one. *)
Definition consistent (w : World) : Prop :=
  ∀ key value,
    if decide (value ∈ getMemoryData key w)
    then ∃ t, pending key value w = [t]
    else pending key value w = [].

(** [w'] keeps the entries of [w] and their queued removals. *)
Definition keeps (w w' : World) : Prop :=
  ∀ key value,
    value ∈ getMemoryData key w →
    value ∈ getMemoryData key w' ∧ pending key value w' = pending key value w.

(** ** Histories *)

(** What happens to the process: the timer phase of the event loop at some
    instant, or a call of one of the sealing handlers. *)
Inductive Event : Type :=
| Tick (now : Z)
| SealUser (ctx : KoaContext string)
| SealIp (ctx : KoaContext string)
| SealUserOnlineIp (ctx : KoaContext string).

Definition perform (SealUserTimeout SealIpTimeout : Z) (w : World) (e : Event)
  : World :=
  match e with
  | Tick now => runTimers now w
  | SealUser ctx => final (sealUser SealUserTimeout ctx w)
  | SealIp ctx => final (sealIp SealIpTimeout ctx w)
  | SealUserOnlineIp ctx => final (sealUserOnlineIp SealIpTimeout ctx w)
  end.

Definition run (SealUserTimeout SealIpTimeout : Z) (history : list Event)
  (w : World) : World :=
  foldl (perform SealUserTimeout SealIpTimeout) w history.

(** ** Sample states *)

Definition tenMinutes : Z := 1000 * 60 * 10.
Definition sixHours : Z := 1000 * 60 * 60 * 6.

Definition admin : Socket := mkSocket "1.1.1.1" "root".

(** Nothing sealed yet. Alice is online from two addresses, Bob from the
    server itself and from one remote address, Carol from the address of the
    administrator and one of her own, Erin from one address, Dave is
    offline. *)
Definition quiet : World :=
  mkWorld ∅ ∅ [] 1000
    [mkUser "u1" "alice"; mkUser "u2" "bob"; mkUser "u3" "carol"; mkUser "u4" "dave";
     mkUser "u5" "erin"]
    [mkSocket "3.3.3.3" "u1"; mkSocket "127.0.0.1" "u2"; mkSocket "4.4.4.4" "u1";
     mkSocket "5.5.5.5" "u2"; mkSocket "1.1.1.1" "u3"; mkSocket "6.6.6.6" "u3";
     mkSocket "7.7.7.7" "u5"].

(** A history: Alice is sealed, then the online addresses of Bob; the timer
    phase runs after Alice's ten minutes; 3.3.3.3 is sealed and Alice once
    more; the timer phase runs again five minutes later. *)
Definition busyDay : list Event :=
  [SealUser (mkContext "alice" admin); SealUserOnlineIp (mkContext "u2" admin);
   Tick 700000; SealIp (mkContext "3.3.3.3" admin);
   SealUser (mkContext "alice" admin); Tick 1000000].

(** A shorter history, for a state where 3.3.3.3 is sealed: a second attempt
    on it, the online addresses of Alice, the timer phase four seconds
    later, and Alice herself. *)
Definition shortWhile : list Event :=
  [SealIp (mkContext "3.3.3.3" admin); SealUserOnlineIp (mkContext "u1" admin);
   Tick 5000; SealUser (mkContext "alice" admin)].

(** * Properties *)

(** ** Running a handler *)

Ltac run_handler :=
  unfold mbind, Handler_bind, mret, Handler_ret, assert, throw, gets, modify;
  cbn beta iota zeta.

Lemma eqb_true (a b : string) : a = b → (a =? b) = true.
Proof. intros ->. apply String.eqb_refl. Qed.

Lemma eqb_false (a b : string) : a ≠ b → (a =? b) = false.
Proof. intros H. by apply String.eqb_neq. Qed.

Lemma existMemoryData_true key value w :
  existMemoryData key value w = true ↔ value ∈ getMemoryData key w.
Proof. unfold existMemoryData. apply bool_decide_eq_true. Qed.

Lemma existMemoryData_false key value w :
  existMemoryData key value w = false ↔ value ∉ getMemoryData key w.
Proof. unfold existMemoryData. apply bool_decide_eq_false. Qed.

(** ** Entries and their queued removals *)

Lemma getMemoryData_add key value key' w :
  getMemoryData key' (addMemoryData key value w) =
    if decide (key' = key) then {[value]} ∪ getMemoryData key' w
    else getMemoryData key' w.
Proof. by destruct key, key'. Qed.

Lemma getMemoryData_delete key value key' w :
  getMemoryData key' (deleteMemoryData key value w) =
    if decide (key' = key) then getMemoryData key' w ∖ {[value]}
    else getMemoryData key' w.
Proof. by destruct key, key'. Qed.

Lemma getMemoryData_setTimeout key value delay key' w :
  getMemoryData key' (setTimeout key value delay w) = getMemoryData key' w.
Proof. by destruct key'. Qed.

Lemma timers_add key value w : timers (addMemoryData key value w) = timers w.
Proof. by destruct key. Qed.

Lemma timers_delete key value w : timers (deleteMemoryData key value w) = timers w.
Proof. by destruct key. Qed.

(** Recording an entry that is not there and queueing its removal, as the
    three sealing handlers do, keeps the state consistent. *)
Lemma consistent_arm key value delay w :
  consistent w → value ∉ getMemoryData key w →
  consistent (setTimeout key value delay (addMemoryData key value w)).
Proof.
  intros Hw Hfresh key' value'. specialize (Hw key' value').
  rewrite getMemoryData_setTimeout, getMemoryData_add.
  unfold pending in *. cbn [timers setTimeout].
  rewrite timers_add, filter_app, filter_singleton; [|exact []]. cbn.
  destruct (decide (key' = key)) as [-> | Hkey].
  - destruct (decide (value' = value)) as [-> | Hvalue].
    + rewrite decide_True by (apply elem_of_union; left; by apply elem_of_singleton).
      rewrite decide_False in Hw by done. rewrite Hw.
      rewrite decide_True by done. eauto.
    + rewrite (decide_False (P := _ ∧ _)) by (intros [_ ?]; congruence).
      rewrite app_nil_r.
      destruct (decide (value' ∈ getMemoryData key w)).
      * rewrite decide_True by (apply elem_of_union; by right). done.
      * rewrite decide_False by (rewrite elem_of_union, elem_of_singleton; tauto).
        done.
  - rewrite (decide_False (P := _ ∧ _)) by (intros [? _]; congruence).
    by rewrite app_nil_r.
Qed.

(** ** [sealIp] *)

Section SealIp.

Variable SealIpTimeout : Z.

Lemma sealIp_local ctx w :
  data ctx = "::1" ∨ data ctx = "127.0.0.1" →
  sealIp SealIpTimeout ctx w = (Thrown CantSealLocalIp, w).
Proof.
  unfold sealIp. run_handler. intros [-> | ->]; reflexivity.
Qed.

Lemma sealIp_self ctx w :
  data ctx ≠ "::1" → data ctx ≠ "127.0.0.1" → data ctx = ip (socket ctx) →
  sealIp SealIpTimeout ctx w = (Thrown CantSealSelf, w).
Proof.
  intros H1 H2 H3. unfold sealIp. run_handler.
  rewrite (eqb_false _ _ H1), (eqb_false _ _ H2). cbn.
  by rewrite (eqb_true _ _ H3).
Qed.

Lemma sealIp_duplicate ctx w :
  data ctx ≠ "::1" → data ctx ≠ "127.0.0.1" → data ctx ≠ ip (socket ctx) →
  data ctx ∈ sealIpList w →
  sealIp SealIpTimeout ctx w = (Thrown IpInSealList, w).
Proof.
  intros H1 H2 H3 H4. unfold sealIp. run_handler.
  rewrite (eqb_false _ _ H1), (eqb_false _ _ H2), (eqb_false _ _ H3). cbn.
  assert (existMemoryData SealIpList (data ctx) w = true) as ->; [|done].
  by apply existMemoryData_true.
Qed.

Lemma sealIp_ok ctx w :
  data ctx ≠ "::1" → data ctx ≠ "127.0.0.1" → data ctx ≠ ip (socket ctx) →
  data ctx ∉ sealIpList w →
  sealIp SealIpTimeout ctx w =
    (Returned (Msg "ok"),
     setTimeout SealIpList (data ctx) SealIpTimeout
       (addMemoryData SealIpList (data ctx) w)).
Proof.
  intros H1 H2 H3 H4. unfold sealIp. run_handler.
  rewrite (eqb_false _ _ H1), (eqb_false _ _ H2), (eqb_false _ _ H3). cbn.
  assert (existMemoryData SealIpList (data ctx) w = false) as ->; [|done].
  by apply existMemoryData_false.
Qed.

(** C3. [sealIp] on the address [ip], asked by a requester at
    [ctx.socket.ip]: a loopback address ('::1' or '127.0.0.1') is refused
    with the local-address message whatever the seal lists hold; otherwise
    the requester's own address is refused with the self-seal message;
    otherwise an address already in the ip seal list is refused with the
    already-sealed message; otherwise the address is added to the ip seal
    list, its removal is queued [SealIpTimeout] from now, and the reply is
    [{ msg: 'ok' }]. A refusal leaves the state as it was. *)
Theorem sealIp_cases ctx w :
  (data ctx = "::1" ∨ data ctx = "127.0.0.1" →
     sealIp SealIpTimeout ctx w = (Thrown CantSealLocalIp, w)) ∧
  (data ctx ≠ "::1" → data ctx ≠ "127.0.0.1" → data ctx = ip (socket ctx) →
     sealIp SealIpTimeout ctx w = (Thrown CantSealSelf, w)) ∧
  (data ctx ≠ "::1" → data ctx ≠ "127.0.0.1" → data ctx ≠ ip (socket ctx) →
   data ctx ∈ sealIpList w →
     sealIp SealIpTimeout ctx w = (Thrown IpInSealList, w)) ∧
  (data ctx ≠ "::1" → data ctx ≠ "127.0.0.1" → data ctx ≠ ip (socket ctx) →
   data ctx ∉ sealIpList w →
     ∃ w', sealIp SealIpTimeout ctx w = (Returned (Msg "ok"), w') ∧
           sealIpList w' = {[data ctx]} ∪ sealIpList w ∧
           sealUserList w' = sealUserList w ∧
           timers w' = (timers w ++ [mkTimer (clock w + SealIpTimeout) SealIpList (data ctx)])%list ∧
           clock w' = clock w).
Proof.
  split_and!.
  - apply sealIp_local.
  - apply sealIp_self.
  - apply sealIp_duplicate.
  - intros H1 H2 H3 H4. eexists. split; [by apply sealIp_ok|]. done.
Qed.

End SealIp.

Lemma sealIp_cases_witness :
  let w := final (sealIp sixHours (mkContext "3.3.3.3" admin) quiet) in
  sealIp sixHours (mkContext "127.0.0.1" admin) w = (Thrown CantSealLocalIp, w) ∧
  sealIp sixHours (mkContext "1.1.1.1" admin) w = (Thrown CantSealSelf, w) ∧
  sealIp sixHours (mkContext "3.3.3.3" admin) w = (Thrown IpInSealList, w) ∧
  ∃ w', sealIp sixHours (mkContext "4.4.4.4" admin) w = (Returned (Msg "ok"), w') ∧
        sealIpList w' = {["4.4.4.4"]} ∪ sealIpList w.
Proof.
  intros w. split_and!.
  - apply (sealIp_cases sixHours (mkContext "127.0.0.1" admin) w). by right.
  - by apply (sealIp_cases sixHours (mkContext "1.1.1.1" admin) w).
  - by apply (sealIp_cases sixHours (mkContext "3.3.3.3" admin) w).
  - destruct (sealIp_cases sixHours (mkContext "4.4.4.4" admin) w) as (_ & _ & _ & H).
    destruct H as (w' & Hrun & Hips & _); [done..|].
    by exists w'.
Defined.

(** ** [sealUser] *)

Lemma User_findOne_None name w :
  User_findOne name w = None ↔ ∀ u, u ∈ userCollection w → username u ≠ name.
Proof.
  unfold User_findOne. induction (userCollection w) as [|v l IH]; cbn.
  - split; [|done]. intros _ u Hu. by apply elem_of_nil in Hu.
  - destruct (String.eqb_spec (username v) name) as [Heq | Hne].
    + split; [done|]. intros H. destruct (H v); [left | done].
    + rewrite IH. split.
      * intros H u [-> | Hu]%elem_of_cons; auto.
      * intros H u Hu. apply H. by right.
Qed.

Lemma User_findOne_Some name w u :
  User_findOne name w = Some u → u ∈ userCollection w ∧ username u = name.
Proof.
  unfold User_findOne. intros H.
  destruct (find_some _ _ H) as [Hin Heq].
  split; [by apply list_elem_of_In | by apply String.eqb_eq].
Qed.

Section SealUser.

Variable SealUserTimeout : Z.

Lemma sealUser_empty ctx w :
  data ctx = "" →
  sealUser SealUserTimeout ctx w = (Thrown "username不能为空", w).
Proof. unfold sealUser. run_handler. by intros ->. Qed.

Lemma sealUser_unknown ctx w :
  data ctx ≠ "" → User_findOne (data ctx) w = None →
  sealUser SealUserTimeout ctx w = (Thrown "用户不存在", w).
Proof.
  intros H1 H2. unfold sealUser. run_handler.
  rewrite (eqb_false _ _ H1). cbn. by rewrite H2.
Qed.

Lemma sealUser_duplicate ctx w u :
  data ctx ≠ "" → User_findOne (data ctx) w = Some u → _id u ∈ sealUserList w →
  sealUser SealUserTimeout ctx w = (Thrown "用户已在封禁名单", w).
Proof.
  intros H1 H2 H3. unfold sealUser. run_handler.
  rewrite (eqb_false _ _ H1). cbn. rewrite H2.
  assert (existMemoryData SealUserList (_id u) w = true) as ->; [|done].
  by apply existMemoryData_true.
Qed.

Lemma sealUser_ok ctx w u :
  data ctx ≠ "" → User_findOne (data ctx) w = Some u → _id u ∉ sealUserList w →
  sealUser SealUserTimeout ctx w =
    (Returned (Msg "ok"),
     setTimeout SealUserList (_id u) SealUserTimeout
       (addMemoryData SealUserList (_id u) w)).
Proof.
  intros H1 H2 H3. unfold sealUser. run_handler.
  rewrite (eqb_false _ _ H1). cbn. rewrite H2.
  assert (existMemoryData SealUserList (_id u) w = false) as ->; [|done].
  by apply existMemoryData_false.
Qed.

(** C4. [sealUser] on a user name: the empty name is refused with the
    empty-name message; otherwise a name that no document of the user
    collection carries is refused with the no-such-user message; otherwise
    the name resolves to a user, and when the identifier of that user is
    already in the user seal list the call is refused with the
    already-sealed message; otherwise the identifier of the user (not the
    name) is added to the user seal list, its removal is queued
    [SealUserTimeout] from now, and the reply is [{ msg: 'ok' }]. A refusal
    leaves the state as it was. *)
Theorem sealUser_cases ctx w :
  (data ctx = "" →
     sealUser SealUserTimeout ctx w = (Thrown "username不能为空", w)) ∧
  (data ctx ≠ "" → (∀ u, u ∈ userCollection w → username u ≠ data ctx) →
     sealUser SealUserTimeout ctx w = (Thrown "用户不存在", w)) ∧
  (∀ u, data ctx ≠ "" → User_findOne (data ctx) w = Some u →
        _id u ∈ sealUserList w →
     sealUser SealUserTimeout ctx w = (Thrown "用户已在封禁名单", w)) ∧
  (∀ u, data ctx ≠ "" → User_findOne (data ctx) w = Some u →
        _id u ∉ sealUserList w →
     ∃ w', sealUser SealUserTimeout ctx w = (Returned (Msg "ok"), w') ∧
           sealUserList w' = {[_id u]} ∪ sealUserList w ∧
           sealIpList w' = sealIpList w ∧
           timers w' =
             (timers w ++ [mkTimer (clock w + SealUserTimeout) SealUserList (_id u)])%list ∧
           clock w' = clock w).
Proof.
  split_and!.
  - apply sealUser_empty.
  - intros H1 H2. apply sealUser_unknown; [done|]. by apply User_findOne_None.
  - apply sealUser_duplicate.
  - intros u H1 H2 H3. eexists. split; [by apply sealUser_ok|]. done.
Qed.

End SealUser.

Lemma sealUser_cases_witness :
  let w := final (sealUser tenMinutes (mkContext "alice" admin) quiet) in
  sealUser tenMinutes (mkContext "" admin) w = (Thrown "username不能为空", w) ∧
  sealUser tenMinutes (mkContext "frank" admin) w = (Thrown "用户不存在", w) ∧
  sealUser tenMinutes (mkContext "alice" admin) w = (Thrown "用户已在封禁名单", w) ∧
  ∃ w', sealUser tenMinutes (mkContext "bob" admin) w = (Returned (Msg "ok"), w') ∧
        sealUserList w' = {["u2"]} ∪ sealUserList w.
Proof.
  intros w. split_and!.
  - by apply (sealUser_cases tenMinutes (mkContext "" admin) w).
  - apply (sealUser_cases tenMinutes (mkContext "frank" admin) w); [done|].
    intros u Hu. cbn in Hu.
    repeat (apply elem_of_cons in Hu as [-> | Hu]; [done|]).
    by apply elem_of_nil in Hu.
  - by apply (sealUser_cases tenMinutes (mkContext "alice" admin) w) with (mkUser "u1" "alice").
  - destruct (sealUser_cases tenMinutes (mkContext "bob" admin) w) as (_ & _ & _ & H).
    destruct (H (mkUser "u2" "bob")) as (w' & Hrun & Hset & _); [done..|].
    by exists w'.
Defined.

(** ** [sealUserOnlineIp] *)

Section SealUserOnlineIp.

Variable SealIpTimeout : Z.
Variable ctx : KoaContext string.

Lemma Barred_eqb addr :
  Barred ctx addr ↔
  (addr =? "::1") || (addr =? "127.0.0.1") = true ∨ (addr =? ip (socket ctx)) = true.
Proof.
  unfold Barred, Loopback.
  rewrite orb_true_iff, !String.eqb_eq. tauto.
Qed.

Lemma sealOnlineIp_round errorMessage addr w :
  sealOnlineIp SealIpTimeout ctx errorMessage addr w =
    (Returned (noteViolation ctx errorMessage addr),
     sealFresh SealIpTimeout ctx w addr).
Proof.
  unfold sealOnlineIp, noteViolation, sealFresh, violation, Barred, Loopback.
  run_handler.
  destruct (String.eqb_spec addr "::1") as [-> | H1]; cbn.
  { rewrite !decide_True by auto. done. }
  destruct (String.eqb_spec addr "127.0.0.1") as [-> | H2]; cbn.
  { rewrite !decide_True by auto. done. }
  destruct (String.eqb_spec addr (ip (socket ctx))) as [H3 | H3].
  { rewrite (decide_True (P := _ ∨ addr = _)) by auto.
    rewrite (decide_False (P := _ ∨ _)) by tauto.
    rewrite (decide_True (P := _ ∨ addr ∈ _)) by auto. done. }
  rewrite (decide_False (P := (_ ∨ _) ∨ addr = _)) by tauto.
  unfold existMemoryData. cbn. case_bool_decide as H4; cbn.
  - rewrite decide_True by auto. done.
  - rewrite decide_False by tauto. done.
Qed.

Lemma forEach_sealOnlineIp l : ∀ errorMessage w,
  forEach (sealOnlineIp SealIpTimeout ctx) l errorMessage w =
    (Returned (foldl (noteViolation ctx) errorMessage l),
     foldl (sealFresh SealIpTimeout ctx) w l).
Proof.
  induction l as [|addr l IH]; intros e w; cbn; [done|].
  unfold mbind, Handler_bind. rewrite sealOnlineIp_round. apply IH.
Qed.

(** *** The message left in [errorMessage] *)

Lemma noteViolation_clean l : ∀ e,
  Forall (λ a, ¬ Barred ctx a) l → foldl (noteViolation ctx) e l = e.
Proof.
  induction l as [|a l IH]; intros e Hl; cbn; [done|].
  apply Forall_cons in Hl as [Ha Hl]. rewrite IH by done.
  unfold noteViolation. by rewrite decide_False.
Qed.

Lemma noteViolation_last pre a post e :
  Barred ctx a → Forall (λ b, ¬ Barred ctx b) post →
  foldl (noteViolation ctx) e (pre ++ a :: post) = violation a.
Proof.
  intros Ha Hpost. rewrite foldl_app. cbn.
  rewrite noteViolation_clean by done.
  unfold noteViolation. by rewrite decide_True.
Qed.

Lemma noteViolation_some l e :
  Exists (Barred ctx) l →
  foldl (noteViolation ctx) e l = CantSealLocalIp ∨
  foldl (noteViolation ctx) e l = CantSealSelf.
Proof.
  induction l as [|a l IH] using rev_ind; intros Hl.
  - by apply Exists_nil in Hl.
  - rewrite foldl_app. cbn. unfold noteViolation at 1 3.
    destruct (decide (Barred ctx a)) as [Ha | Ha].
    + unfold violation. destruct (decide (Loopback a)); auto.
    + apply IH. apply Exists_app in Hl as [Hl | Hl]; [done|].
      apply Exists_cons in Hl as [Hl | Hl]; [done|]. by apply Exists_nil in Hl.
Qed.

(** *** The state left by the rounds *)

Lemma sealFresh_frame w a :
  sealUserList (sealFresh SealIpTimeout ctx w a) = sealUserList w ∧
  clock (sealFresh SealIpTimeout ctx w a) = clock w ∧
  userCollection (sealFresh SealIpTimeout ctx w a) = userCollection w ∧
  socketCollection (sealFresh SealIpTimeout ctx w a) = socketCollection w.
Proof. unfold sealFresh. by case_decide. Qed.

Lemma foldl_sealFresh_frame l : ∀ w,
  sealUserList (foldl (sealFresh SealIpTimeout ctx) w l) = sealUserList w ∧
  clock (foldl (sealFresh SealIpTimeout ctx) w l) = clock w ∧
  userCollection (foldl (sealFresh SealIpTimeout ctx) w l) = userCollection w ∧
  socketCollection (foldl (sealFresh SealIpTimeout ctx) w l) = socketCollection w.
Proof.
  induction l as [|a l IH]; intros w; cbn; [done|].
  destruct (IH (sealFresh SealIpTimeout ctx w a)) as (-> & -> & -> & ->).
  apply sealFresh_frame.
Qed.

Lemma foldl_sealFresh_sealIpList l : ∀ w,
  sealIpList (foldl (sealFresh SealIpTimeout ctx) w l) =
    sealIpList w ∪ list_to_set (filter (λ a, ¬ Barred ctx a) l).
Proof.
  induction l as [|a l IH]; intros w; cbn [foldl].
  - by rewrite filter_nil, list_to_set_nil, union_empty_r_L.
  - rewrite IH. unfold sealFresh at 1.
    destruct (decide (Barred ctx a)) as [Ha | Ha].
    + rewrite decide_True by auto. rewrite filter_cons_False by auto. done.
    + rewrite filter_cons_True by done. rewrite list_to_set_cons.
      destruct (decide (a ∈ sealIpList w)) as [Hin | Hin].
      * rewrite decide_True by auto.
        rewrite (assoc_L (∪)). f_equal.
        apply set_eq. intros x. rewrite elem_of_union, elem_of_singleton.
        split; [auto | by intros [? | ->]].
      * rewrite decide_False by tauto. cbn.
        rewrite (assoc_L (∪)). f_equal. apply (comm_L (∪)).
Qed.

Lemma foldl_sealFresh_timers l : ∀ w t,
  t ∈ timers (foldl (sealFresh SealIpTimeout ctx) w l) ↔
  t ∈ timers w ∨
  ∃ a, a ∈ l ∧ ¬ Barred ctx a ∧ (a ∉ sealIpList w) ∧
       t = mkTimer (clock w + SealIpTimeout) SealIpList a.
Proof.
  induction l as [|a l IH]; intros w t; cbn.
  - split; [auto|]. intros [? | (a & Ha & _)]; [done|]. by apply elem_of_nil in Ha.
  - rewrite IH. unfold sealFresh.
    destruct (decide (Barred ctx a ∨ a ∈ sealIpList w)) as [Hskip | Hfresh].
    + split.
      * intros [? | (b & Hb & ?)]; [by left|]. right. exists b. split; [by right | done].
      * intros [? | (b & Hb & Hb1 & Hb2 & ->)]; [by left|]. right.
        apply elem_of_cons in Hb as [-> | Hb]; [tauto|]. by exists b.
    + cbn. rewrite elem_of_app, list_elem_of_singleton.
      split.
      * intros [[? | ->] | (b & Hb & Hb1 & Hb2 & ->)].
        -- by left.
        -- right. exists a. split_and!; [left | tauto | tauto | done].
        -- right. exists b. split_and!; [by right | done | | done].
           intros ?. apply Hb2. apply elem_of_union. by right.
      * intros [? | (b & Hb & Hb1 & Hb2 & ->)]; [by left; left|].
        destruct (decide (b = a)) as [-> | Hne]; [by left; right|].
        right. exists b. apply elem_of_cons in Hb as [-> | Hb]; [done|].
        split_and!; [done | done | | done].
        rewrite elem_of_union, elem_of_singleton. tauto.
Qed.

Lemma sealFresh_consistent w a :
  consistent w → consistent (sealFresh SealIpTimeout ctx w a).
Proof.
  intros Hw. unfold sealFresh. case_decide as H; [done|].
  apply consistent_arm; [done|]. cbn. tauto.
Qed.

Lemma foldl_sealFresh_consistent l : ∀ w,
  consistent w → consistent (foldl (sealFresh SealIpTimeout ctx) w l).
Proof.
  induction l as [|a l IH]; intros w Hw; cbn; [done|].
  by apply IH, sealFresh_consistent.
Qed.

(** *** The guard and the two ways the handler ends *)

Lemma allSealed_iff l w :
  forallb (λ a, existMemoryData SealIpList a w) l = true ↔
  ∀ a, a ∈ l → a ∈ sealIpList w.
Proof.
  rewrite forallb_forall. split.
  - intros H a Ha. apply (existMemoryData_true SealIpList), H.
    by apply list_elem_of_In.
  - intros H a Ha. apply (existMemoryData_true SealIpList), H.
    by apply list_elem_of_In.
Qed.

Lemma sealUserOnlineIp_refused w :
  (∀ a, a ∈ onlineIps (data ctx) w → a ∈ sealIpList w) →
  sealUserOnlineIp SealIpTimeout ctx w = (Thrown IpInSealList, w).
Proof.
  intros H. apply allSealed_iff in H.
  unfold sealUserOnlineIp. run_handler.
  fold (onlineIps (data ctx) w). by rewrite H.
Qed.

Lemma sealUserOnlineIp_rounds w :
  (∃ a, a ∈ onlineIps (data ctx) w ∧ a ∉ sealIpList w) →
  sealUserOnlineIp SealIpTimeout ctx w =
    (Returned
       (if truthy (foldl (noteViolation ctx) "" (onlineIps (data ctx) w))
        then Text (foldl (noteViolation ctx) "" (onlineIps (data ctx) w))
        else Msg "ok"),
     foldl (sealFresh SealIpTimeout ctx) w (onlineIps (data ctx) w)).
Proof.
  intros (a & Ha & Hfresh).
  assert (forallb (λ a, existMemoryData SealIpList a w) (onlineIps (data ctx) w)
          = false) as Hguard.
  { apply not_true_is_false. rewrite allSealed_iff. intros H. by apply Hfresh, H. }
  unfold sealUserOnlineIp. run_handler.
  fold (onlineIps (data ctx) w). rewrite Hguard. cbn.
  rewrite forEach_sealOnlineIp. by case (truthy _).
Qed.

Lemma violation_truthy a : truthy (violation a) = true.
Proof. unfold violation. by case_decide. Qed.

(** C1. When the addresses of the target's live sockets include a loopback
    address or the requester's own, and not all of them are sealed already,
    [sealUserOnlineIp] returns a violation message in place of
    [{ msg: 'ok' }]: the message of the last barred address of the list,
    which is the local-address message for a loopback address and the
    self-seal message otherwise. All the same, every address of the list
    that is neither loopback nor the requester's is in the ip seal list when
    the call ends, those that were not sealed before with a removal queued
    [SealIpTimeout] from now. *)
Theorem sealUserOnlineIp_violation w :
  (∃ a, a ∈ onlineIps (data ctx) w ∧ Barred ctx a) →
  (∃ a, a ∈ onlineIps (data ctx) w ∧ a ∉ sealIpList w) →
  ∃ m w',
    sealUserOnlineIp SealIpTimeout ctx w = (Returned (Text m), w') ∧
    (m = CantSealLocalIp ∨ m = CantSealSelf) ∧
    (∀ pre a post,
       onlineIps (data ctx) w = (pre ++ a :: post)%list → Barred ctx a →
       Forall (λ b, ¬ Barred ctx b) post → m = violation a) ∧
    sealIpList w' =
      sealIpList w ∪ list_to_set (filter (λ a, ¬ Barred ctx a) (onlineIps (data ctx) w)) ∧
    (∀ a, a ∈ onlineIps (data ctx) w → ¬ Barred ctx a → a ∈ sealIpList w') ∧
    (∀ a, a ∈ onlineIps (data ctx) w → ¬ Barred ctx a → a ∉ sealIpList w →
       mkTimer (clock w + SealIpTimeout) SealIpList a ∈ timers w') ∧
    sealUserList w' = sealUserList w.
Proof.
  intros (b & Hb & Hbarred) Hfresh.
  rewrite (sealUserOnlineIp_rounds w Hfresh).
  set (l := onlineIps (data ctx) w) in *.
  assert (Exists (Barred ctx) l) as Hex by (apply Exists_exists; eauto).
  pose proof (noteViolation_some l "" Hex) as Hm.
  assert (truthy (foldl (noteViolation ctx) "" l) = true) as ->
    by (by destruct Hm as [-> | ->]).
  eexists _, _. split; [done|]. split_and!.
  - done.
  - intros pre a post -> Ha Hpost. by apply noteViolation_last.
  - apply foldl_sealFresh_sealIpList.
  - intros a Ha Hclean. rewrite foldl_sealFresh_sealIpList.
    apply elem_of_union. right. apply elem_of_list_to_set.
    by apply list_elem_of_filter.
  - intros a Ha Hclean Hnew. apply foldl_sealFresh_timers. right. by exists a.
  - apply foldl_sealFresh_frame.
Qed.

(** C6. When every address of the target's live sockets is in the ip seal
    list already, [sealUserOnlineIp] is refused and leaves the state as it
    was. The message of the refusal is the already-sealed message of [sealIp]
    on a single sealed address: the two refusals are the same error. *)
Theorem sealUserOnlineIp_all_sealed w :
  (∀ a, a ∈ onlineIps (data ctx) w → a ∈ sealIpList w) →
  sealUserOnlineIp SealIpTimeout ctx w = (Thrown IpInSealList, w) ∧
  ∀ ctx' w',
    ¬ Barred ctx' (data ctx') → data ctx' ∈ sealIpList w' →
    outcome (sealIp SealIpTimeout ctx' w') =
    outcome (sealUserOnlineIp SealIpTimeout ctx w).
Proof.
  intros H. split; [by apply sealUserOnlineIp_refused|].
  intros ctx' w' Hfree Hin. rewrite (sealUserOnlineIp_refused w H).
  unfold Barred, Loopback in Hfree.
  rewrite sealIp_duplicate; [done | tauto..| done].
Qed.

(** C8. When the target has a live socket, and no address of the live
    sockets is a loopback address, the requester's own, or sealed already,
    [sealUserOnlineIp] adds every one of them to the ip seal list, queues a
    removal for each [SealIpTimeout] from now, and replies
    [{ msg: 'ok' }]. *)
Theorem sealUserOnlineIp_ok w :
  onlineIps (data ctx) w ≠ [] →
  (∀ a, a ∈ onlineIps (data ctx) w → ¬ Barred ctx a ∧ a ∉ sealIpList w) →
  ∃ w',
    sealUserOnlineIp SealIpTimeout ctx w = (Returned (Msg "ok"), w') ∧
    sealIpList w' = sealIpList w ∪ list_to_set (onlineIps (data ctx) w) ∧
    (∀ a, a ∈ onlineIps (data ctx) w →
       a ∈ sealIpList w' ∧
       mkTimer (clock w + SealIpTimeout) SealIpList a ∈ timers w') ∧
    sealUserList w' = sealUserList w.
Proof.
  intros Hne Hclean.
  assert (∃ a, a ∈ onlineIps (data ctx) w ∧ a ∉ sealIpList w) as Hfresh.
  { destruct (onlineIps (data ctx) w) as [|a l] eqn:E; [done|].
    exists a. split; [left|]. apply Hclean. left. }
  rewrite (sealUserOnlineIp_rounds w Hfresh).
  set (l := onlineIps (data ctx) w) in *.
  assert (Forall (λ a, ¬ Barred ctx a) l) as Hall.
  { apply Forall_forall. intros a Ha. by apply Hclean. }
  rewrite noteViolation_clean by done. cbn.
  assert (filter (λ a, ¬ Barred ctx a) l = l) as Hfilter.
  { clear -Hall. induction Hall as [|a l Ha Hl IH]; [done|].
    rewrite filter_cons_True by done. by rewrite IH. }
  eexists. split; [done|]. split_and!.
  - by rewrite foldl_sealFresh_sealIpList, Hfilter.
  - intros a Ha. destruct (Hclean a Ha) as [Hfree Hnew]. split.
    + rewrite foldl_sealFresh_sealIpList, Hfilter.
      apply elem_of_union. right. by apply elem_of_list_to_set.
    + apply foldl_sealFresh_timers. right. by exists a.
  - apply foldl_sealFresh_frame.
Qed.

(** C10. When the target has no live socket (the user is offline or
    unknown), [sealUserOnlineIp] is refused with the already-sealed message
    'ip已在封禁名单' and leaves the state as it was: [every] holds of the
    empty list. *)
Theorem sealUserOnlineIp_offline w :
  onlineIps (data ctx) w = [] →
  sealUserOnlineIp SealIpTimeout ctx w = (Thrown "ip已在封禁名单", w).
Proof.
  intros Hnone. apply sealUserOnlineIp_refused.
  rewrite Hnone. intros a Ha. by apply elem_of_nil in Ha.
Qed.

End SealUserOnlineIp.

(** Bob is online from the server itself and from 5.5.5.5: the call returns
    the local-address message, and 5.5.5.5 is sealed all the same. *)
Lemma sealUserOnlineIp_violation_witness :
  ∃ w', sealUserOnlineIp sixHours (mkContext "u2" admin) quiet =
          (Returned (Text CantSealLocalIp), w') ∧
        "5.5.5.5" ∈ sealIpList w' ∧
        sealIpList w' = sealIpList quiet ∪ {["5.5.5.5"]}.
Proof.
  destruct (sealUserOnlineIp_violation sixHours (mkContext "u2" admin) quiet)
    as (m & w' & Hrun & _ & Hlast & Hset & Hin & _).
  - exists "127.0.0.1". split; [compute_done|]. left. by right.
  - exists "5.5.5.5". split; compute_done.
  - exists w'. rewrite Hrun.
    rewrite (Hlast [] "127.0.0.1" ["5.5.5.5"]).
    + split; [done|]. split.
      * apply Hin; compute_done.
      * rewrite Hset. f_equal.
    + done.
    + left. by right.
    + apply Forall_forall. intros b Hb. apply list_elem_of_singleton in Hb as ->.
      compute_done.
Defined.

(** C1, as stated, fails when the guard fires first. Erin's only address,
    7.7.7.7, has been sealed by the administrator; a requester at 7.7.7.7
    then asks to seal Erin's online addresses. The list holds the requester's
    own address, yet the call is refused with the already-sealed message and
    returns no violation message. *)
Lemma sealUserOnlineIp_violation_masked :
  let w := final (sealIp sixHours (mkContext "7.7.7.7" admin) quiet) in
  let ctx := mkContext "u5" (mkSocket "7.7.7.7" "u5") in
  (∃ a, a ∈ onlineIps (data ctx) w ∧ Barred ctx a) ∧
  sealUserOnlineIp sixHours ctx w = (Thrown IpInSealList, w) ∧
  ∀ m, outcome (sealUserOnlineIp sixHours ctx w) ≠ Returned (Text m).
Proof.
  intros w ctx. split_and!.
  - exists "7.7.7.7". split; [compute_done | by right].
  - vm_compute. reflexivity.
  - intros m. vm_compute. discriminate.
Qed.

Lemma sealUserOnlineIp_all_sealed_witness :
  let w := final (sealIp sixHours (mkContext "7.7.7.7" admin) quiet) in
  sealUserOnlineIp sixHours (mkContext "u5" admin) w = (Thrown IpInSealList, w).
Proof.
  intros w.
  apply (sealUserOnlineIp_all_sealed sixHours (mkContext "u5" admin) w).
  intros a Ha. apply list_elem_of_singleton in Ha as ->. compute_done.
Defined.

(** C6, as stated, fails: the refusal of the bulk call when every address is
    sealed and the refusal of [sealIp] on one sealed address are one and the
    same error. *)
Lemma sealUserOnlineIp_all_sealed_same_error :
  let w := final (sealIp sixHours (mkContext "7.7.7.7" admin) quiet) in
  (∀ a, a ∈ onlineIps "u5" w → a ∈ sealIpList w) ∧
  outcome (sealUserOnlineIp sixHours (mkContext "u5" admin) w) =
  outcome (sealIp sixHours (mkContext "7.7.7.7" admin) w).
Proof.
  intros w. split.
  - intros a Ha. apply list_elem_of_singleton in Ha as ->. compute_done.
  - vm_compute. reflexivity.
Qed.

(** Alice is online from 3.3.3.3 and 4.4.4.4: both are sealed. *)
Lemma sealUserOnlineIp_ok_witness :
  ∃ w', sealUserOnlineIp sixHours (mkContext "u1" admin) quiet =
          (Returned (Msg "ok"), w') ∧
        "3.3.3.3" ∈ sealIpList w' ∧ "4.4.4.4" ∈ sealIpList w'.
Proof.
  destruct (sealUserOnlineIp_ok sixHours (mkContext "u1" admin) quiet)
    as (w' & Hrun & _ & Hin & _).
  - done.
  - intros a Ha. split.
    + apply elem_of_cons in Ha as [-> | Ha]; [compute_done|].
      apply list_elem_of_singleton in Ha as ->. compute_done.
    + apply not_elem_of_empty.
  - exists w'. split; [done|]. split; apply Hin; compute_done.
Defined.

(** C8, as stated, fails for a user with no live socket. Dave is offline:
    the list of his addresses is empty, so it holds no loopback address, no
    address of the requester and no sealed address; the call is refused and
    does not reply [{ msg: 'ok' }]. *)
Lemma sealUserOnlineIp_offline_refused :
  onlineIps "u4" quiet = [] ∧
  sealUserOnlineIp sixHours (mkContext "u4" admin) quiet = (Thrown IpInSealList, quiet) ∧
  outcome (sealUserOnlineIp sixHours (mkContext "u4" admin) quiet) ≠ Returned (Msg "ok").
Proof.
  split_and!.
  - reflexivity.
  - vm_compute. reflexivity.
  - vm_compute. discriminate.
Qed.

Lemma sealUserOnlineIp_offline_witness :
  sealUserOnlineIp tenMinutes (mkContext "u4" admin) quiet =
    (Thrown "ip已在封禁名单", quiet).
Proof.
  by apply (sealUserOnlineIp_offline tenMinutes (mkContext "u4" admin) quiet).
Defined.

(** ** The timer phase *)

Lemma foldl_fire_timers l : ∀ w, timers (foldl fire w l) = timers w.
Proof.
  induction l as [|t l IH]; intros w; cbn; [done|].
  rewrite IH. apply timers_delete.
Qed.

Lemma foldl_fire_store key value l : ∀ w,
  value ∈ getMemoryData key (foldl fire w l) ↔
  value ∈ getMemoryData key w ∧
  ∀ t, t ∈ l → timerKey t = key → timerValue t ≠ value.
Proof.
  induction l as [|t l IH]; intros w; cbn.
  - split; [|tauto]. intros H. split; [done|]. intros t Ht. by apply elem_of_nil in Ht.
  - rewrite IH. unfold fire at 1. rewrite getMemoryData_delete.
    split.
    + intros [Hin Hl]. case_decide as Hkey.
      * apply elem_of_difference in Hin as [Hin Hne].
        rewrite elem_of_singleton in Hne.
        split; [done|]. intros t' [-> | Ht']%elem_of_cons; [congruence | by apply Hl].
      * split; [done|]. intros t' [-> | Ht']%elem_of_cons; [congruence | by apply Hl].
    + intros [Hin Hl]. split.
      * case_decide as Hkey; [|done].
        apply elem_of_difference. split; [done|].
        rewrite elem_of_singleton. intros ->. apply (Hl t); [left | done..].
      * intros t' Ht'. apply Hl. by right.
Qed.

Lemma getMemoryData_runTimers key now w :
  getMemoryData key (runTimers now w) =
  getMemoryData key (foldl fire w (filter (λ t, due now t = true) (timers w))).
Proof. by destruct key. Qed.

Lemma due_true now t : due now t = true ↔ (fireAt t ≤ now)%Z.
Proof. unfold due. apply Z.leb_le. Qed.

Lemma due_false now t : due now t = false ↔ (now < fireAt t)%Z.
Proof. unfold due. apply Z.leb_gt. Qed.

(** An entry outlives the timer phase when it was there before and none of
    its queued removals has come due. *)
Lemma runTimers_store key value now w :
  value ∈ getMemoryData key (runTimers now w) ↔
  value ∈ getMemoryData key w ∧
  ∀ t, t ∈ pending key value w → (now < fireAt t)%Z.
Proof.
  rewrite getMemoryData_runTimers, foldl_fire_store. unfold pending.
  split; intros [Hin Hl]; (split; [done|]).
  - intros t [[Hkey Hvalue] Ht]%list_elem_of_filter.
    destruct (Z.lt_ge_cases now (fireAt t)) as [|Hdue]; [done|].
    destruct (Hl t); [|done..]. apply list_elem_of_filter. by rewrite due_true.
  - intros t [Hdue Ht]%list_elem_of_filter Hkey Hvalue.
    apply due_true in Hdue.
    assert (now < fireAt t)%Z; [|lia]. apply Hl. by apply list_elem_of_filter.
Qed.

Lemma runTimers_pending key value now w :
  pending key value (runTimers now w) =
  filter (λ t, due now t = false) (pending key value w).
Proof.
  unfold pending. cbn [timers runTimers].
  rewrite !list_filter_filter. apply list_filter_iff. tauto.
Qed.

Lemma runTimers_consistent now w : consistent w → consistent (runTimers now w).
Proof.
  intros Hw key value. specialize (Hw key value).
  rewrite runTimers_pending.
  destruct (decide (value ∈ getMemoryData key w)) as [Hin | Hout].
  - destruct Hw as [t Ht]. rewrite Ht, filter_singleton; [|exact []].
    destruct (decide (due now t = false)) as [Hlate | Hdue].
    + rewrite decide_True; [eauto|].
      apply runTimers_store. split; [done|].
      rewrite Ht. intros t' ->%list_elem_of_singleton. by apply due_false.
    + rewrite decide_False; [done|].
      rewrite runTimers_store, Ht. intros [_ Hl].
      apply Hdue, due_false, Hl. by left.
  - rewrite Hw, filter_nil. rewrite decide_False; [done|].
    rewrite runTimers_store. tauto.
Qed.

(** ** The life of an entry *)

Lemma clock_add key value w : clock (addMemoryData key value w) = clock w.
Proof. by destruct key. Qed.

Lemma pending_arm key value delay w :
  pending key value (setTimeout key value delay (addMemoryData key value w)) =
  (pending key value w ++ [mkTimer (clock w + delay) key value])%list.
Proof.
  unfold pending. cbn [timers setTimeout].
  rewrite timers_add, clock_add, filter_app, filter_singleton; [|exact []].
  by rewrite decide_True.
Qed.

(** An entry recorded at the instant [clock w] with a removal queued [delay]
    later is there at every instant before [clock w + delay], with that one
    removal queued, and is gone from that instant on. *)
Lemma armed_entry key value delay now w :
  consistent w → value ∉ getMemoryData key w → (now < clock w + delay)%Z →
  let w2 := runTimers now (setTimeout key value delay (addMemoryData key value w)) in
  value ∈ getMemoryData key w2 ∧
  pending key value w2 = [mkTimer (clock w + delay) key value] ∧
  ∀ now', value ∈ getMemoryData key (runTimers now' w2) ↔ (now' < clock w + delay)%Z.
Proof.
  intros Hw Hfresh Hnow w2.
  assert (pending key value w = []) as Hnone.
  { specialize (Hw key value). by rewrite decide_False in Hw. }
  assert (pending key value w2 = [mkTimer (clock w + delay) key value]) as Hone.
  { unfold w2. rewrite runTimers_pending, pending_arm, Hnone. cbn [app].
    rewrite filter_singleton; [|exact []]. rewrite decide_True; [done|].
    by apply due_false. }
  assert (value ∈ getMemoryData key w2) as Hin.
  { unfold w2. apply runTimers_store. split.
    - rewrite getMemoryData_setTimeout, getMemoryData_add, decide_True by done.
      apply elem_of_union. left. by apply elem_of_singleton.
    - rewrite pending_arm, Hnone. intros t ->%list_elem_of_singleton. done. }
  split_and!; [done..|].
  intros now'. rewrite runTimers_store, Hone. split.
  - intros [_ Hl]. apply (Hl (mkTimer (clock w + delay) key value)). by left.
  - intros Hnow'. split; [done|]. by intros t ->%list_elem_of_singleton.
Qed.

Lemma sealUser_thrown SealUserTimeout ctx w m w' :
  sealUser SealUserTimeout ctx w = (Thrown m, w') → w' = w.
Proof.
  destruct (decide (data ctx = "")) as [Hempty | Hname].
  { rewrite sealUser_empty by done. congruence. }
  destruct (User_findOne (data ctx) w) as [u|] eqn:Hfound.
  - destruct (decide (_id u ∈ sealUserList w)) as [Hin | Hout].
    + rewrite (sealUser_duplicate _ _ _ u) by done. congruence.
    + rewrite (sealUser_ok _ _ _ u) by done. discriminate.
  - rewrite sealUser_unknown by done. congruence.
Qed.

Lemma sealIp_thrown SealIpTimeout ctx w m w' :
  sealIp SealIpTimeout ctx w = (Thrown m, w') → w' = w.
Proof.
  destruct (decide (Loopback (data ctx))) as [Hlocal | Hremote].
  { rewrite sealIp_local by done. congruence. }
  unfold Loopback in Hremote.
  destruct (decide (data ctx = ip (socket ctx))) as [Hself | Hother].
  { rewrite sealIp_self by tauto. congruence. }
  destruct (decide (data ctx ∈ sealIpList w)) as [Hin | Hout].
  - rewrite sealIp_duplicate by tauto. congruence.
  - rewrite sealIp_ok by tauto. discriminate.
Qed.

Lemma sealIp_sealed SealIpTimeout ctx w :
  data ctx ∈ sealIpList w → ∃ m, sealIp SealIpTimeout ctx w = (Thrown m, w).
Proof.
  intros Hin.
  destruct (decide (Loopback (data ctx))) as [Hlocal | Hremote].
  { rewrite sealIp_local by done. eauto. }
  unfold Loopback in Hremote.
  destruct (decide (data ctx = ip (socket ctx))) as [Hself | Hother].
  { rewrite sealIp_self by tauto. eauto. }
  rewrite sealIp_duplicate by tauto. eauto.
Qed.

Lemma sealIp_returned SealIpTimeout ctx w r w1 :
  sealIp SealIpTimeout ctx w = (Returned r, w1) →
  (data ctx ∉ sealIpList w) ∧
  w1 = setTimeout SealIpList (data ctx) SealIpTimeout
         (addMemoryData SealIpList (data ctx) w).
Proof.
  destruct (decide (data ctx ∈ sealIpList w)) as [Hin | Hout].
  { destruct (sealIp_sealed SealIpTimeout ctx w Hin) as [m ->]. discriminate. }
  destruct (decide (Loopback (data ctx))) as [Hlocal | Hremote].
  { rewrite sealIp_local by done. discriminate. }
  unfold Loopback in Hremote.
  destruct (decide (data ctx = ip (socket ctx))) as [Hself | Hother].
  { rewrite sealIp_self by tauto. discriminate. }
  rewrite sealIp_ok by tauto. intros [= _ <-]. done.
Qed.

Lemma sealUser_returned SealUserTimeout ctx w r w1 :
  sealUser SealUserTimeout ctx w = (Returned r, w1) →
  ∃ u, r = Msg "ok" ∧ data ctx ≠ "" ∧ User_findOne (data ctx) w = Some u ∧
       (_id u ∉ sealUserList w) ∧
       w1 = setTimeout SealUserList (_id u) SealUserTimeout
              (addMemoryData SealUserList (_id u) w).
Proof.
  destruct (decide (data ctx = "")) as [Hempty | Hname].
  { rewrite sealUser_empty by done. discriminate. }
  destruct (User_findOne (data ctx) w) as [u|] eqn:Hfound.
  - destruct (decide (_id u ∈ sealUserList w)) as [Hin | Hout].
    + rewrite (sealUser_duplicate _ _ _ u) by done. discriminate.
    + rewrite (sealUser_ok _ _ _ u) by done. intros [= <- <-]. by exists u.
  - rewrite sealUser_unknown by done. discriminate.
Qed.

(** C5. A call of [sealUser] or [sealIp] that fails (empty name, unknown
    user, already sealed, loopback address, own address) leaves the whole
    state as it was: the seal lists and the queue of removals. A second
    attempt on an entry that is still sealed is such a failure. So, in a
    consistent state, once an address or a user has been sealed at the
    instant [clock w], an attempt to seal it again before its time is up
    fails, the entry keeps the one removal queued at [clock w] plus the
    timeout, and the entry is there before that instant and gone from it
    on. *)
Theorem failed_seal_changes_nothing SealUserTimeout SealIpTimeout ctx w :
  (∀ m w', sealUser SealUserTimeout ctx w = (Thrown m, w') → w' = w) ∧
  (∀ m w', sealIp SealIpTimeout ctx w = (Thrown m, w') → w' = w) ∧
  (∀ u, data ctx ≠ "" → User_findOne (data ctx) w = Some u →
        _id u ∈ sealUserList w →
        sealUser SealUserTimeout ctx w = (Thrown "用户已在封禁名单", w)) ∧
  (data ctx ∈ sealIpList w → ∃ m, sealIp SealIpTimeout ctx w = (Thrown m, w)) ∧
  (consistent w → ∀ r w1 now ctx',
     sealIp SealIpTimeout ctx w = (Returned r, w1) →
     (now < clock w + SealIpTimeout)%Z → data ctx' = data ctx →
     let w2 := runTimers now w1 in
     (∃ m, sealIp SealIpTimeout ctx' w2 = (Thrown m, w2)) ∧
     pending SealIpList (data ctx) w2 =
       [mkTimer (clock w + SealIpTimeout) SealIpList (data ctx)] ∧
     ∀ now', data ctx ∈ sealIpList (runTimers now' w2) ↔
             (now' < clock w + SealIpTimeout)%Z) ∧
  (consistent w → ∀ r w1 now ctx' u,
     sealUser SealUserTimeout ctx w = (Returned r, w1) →
     User_findOne (data ctx) w = Some u →
     (now < clock w + SealUserTimeout)%Z → data ctx' = data ctx →
     let w2 := runTimers now w1 in
     sealUser SealUserTimeout ctx' w2 = (Thrown "用户已在封禁名单", w2) ∧
     pending SealUserList (_id u) w2 =
       [mkTimer (clock w + SealUserTimeout) SealUserList (_id u)] ∧
     ∀ now', _id u ∈ sealUserList (runTimers now' w2) ↔
             (now' < clock w + SealUserTimeout)%Z).
Proof.
  split_and!.
  - apply sealUser_thrown.
  - apply sealIp_thrown.
  - apply sealUser_duplicate.
  - apply sealIp_sealed.
  - intros Hw r w1 now ctx' Hrun Hnow Hsame w2.
    apply sealIp_returned in Hrun as [Hfresh ->].
    destruct (armed_entry SealIpList (data ctx) SealIpTimeout now w Hw Hfresh Hnow)
      as (Hin & Hone & Hlife).
    split_and!; [|done..].
    apply sealIp_sealed. by rewrite Hsame.
  - intros Hw r w1 now ctx' u Hrun Hfound Hnow Hsame w2.
    apply sealUser_returned in Hrun as (u' & _ & Hname & Hfound' & Hfresh & ->).
    assert (u' = u) as -> by congruence.
    destruct (armed_entry SealUserList (_id u) SealUserTimeout now w Hw Hfresh Hnow)
      as (Hin & Hone & Hlife).
    split_and!; [|done..].
    apply (sealUser_duplicate _ _ _ u); by rewrite ?Hsame.
Qed.

Lemma consistent_fresh w :
  sealUserList w = ∅ → sealIpList w = ∅ → timers w = [] → consistent w.
Proof.
  intros Husers Hips Hnone key value. unfold pending. rewrite Hnone, filter_nil.
  rewrite decide_False; [done|].
  destruct key; cbn; rewrite ?Husers, ?Hips; apply not_elem_of_empty.
Qed.

(** 3.3.3.3 is sealed at the instant 1000; four seconds later a second
    attempt fails and the removal stays queued six hours after 1000. A call
    that fails on a loopback address changes nothing either. *)
Lemma failed_seal_changes_nothing_witness :
  let ctx := mkContext "3.3.3.3" admin in
  let w2 := runTimers 5000 (final (sealIp sixHours ctx quiet)) in
  final (sealIp sixHours (mkContext "::1" admin) quiet) = quiet ∧
  (∃ m, sealIp sixHours ctx w2 = (Thrown m, w2)) ∧
  pending SealIpList "3.3.3.3" w2 = [mkTimer (1000 + sixHours) SealIpList "3.3.3.3"].
Proof.
  intros ctx w2.
  destruct (failed_seal_changes_nothing tenMinutes sixHours (mkContext "::1" admin) quiet)
    as (_ & Hfail & _).
  destruct (failed_seal_changes_nothing tenMinutes sixHours ctx quiet)
    as (_ & _ & _ & _ & Hip & _).
  destruct (Hip (consistent_fresh quiet eq_refl eq_refl eq_refl)
              (Msg "ok") (final (sealIp sixHours ctx quiet)) 5000%Z ctx)
    as (Hagain & Hone & _); [done..|].
  split_and!; [|done..].
  by apply (Hfail CantSealLocalIp).
Defined.

(** ** Consistency along a history *)

Lemma sealUser_consistent SealUserTimeout ctx w :
  consistent w → consistent (final (sealUser SealUserTimeout ctx w)).
Proof.
  intros Hw. destruct (sealUser SealUserTimeout ctx w) as [[r | m] w'] eqn:Hrun.
  - apply sealUser_returned in Hrun as (u & _ & _ & _ & Hfresh & ->).
    by apply consistent_arm.
  - by apply sealUser_thrown in Hrun as ->.
Qed.

Lemma sealIp_consistent SealIpTimeout ctx w :
  consistent w → consistent (final (sealIp SealIpTimeout ctx w)).
Proof.
  intros Hw. destruct (sealIp SealIpTimeout ctx w) as [[r | m] w'] eqn:Hrun.
  - apply sealIp_returned in Hrun as (Hfresh & ->). by apply consistent_arm.
  - by apply sealIp_thrown in Hrun as ->.
Qed.

Lemma sealUserOnlineIp_consistent SealIpTimeout ctx w :
  consistent w → consistent (final (sealUserOnlineIp SealIpTimeout ctx w)).
Proof.
  intros Hw.
  destruct (decide (Forall (λ a, a ∈ sealIpList w) (onlineIps (data ctx) w)))
    as [Hall | Hsome].
  - rewrite sealUserOnlineIp_refused; [done|]. by apply Forall_forall.
  - apply not_Forall_Exists in Hsome; [|apply _].
    apply Exists_exists in Hsome. rewrite sealUserOnlineIp_rounds by done.
    by apply foldl_sealFresh_consistent.
Qed.

(** Every entry of a seal list has exactly one queued removal, and nothing
    else has one, all along a history that starts in a consistent state: the
    handlers seal only what is not sealed, and queue one removal with each
    entry; the timer phase removes an entry together with its removal. *)
Lemma run_consistent SealUserTimeout SealIpTimeout history : ∀ w,
  consistent w → consistent (run SealUserTimeout SealIpTimeout history w).
Proof.
  unfold run. induction history as [|e history IH]; intros w Hw; cbn [foldl]; [done|].
  apply IH. destruct e; cbn [perform].
  - by apply runTimers_consistent.
  - by apply sealUser_consistent.
  - by apply sealIp_consistent.
  - by apply sealUserOnlineIp_consistent.
Qed.

(** ** [getBaiduToken] *)

Lemma truthy_iff s : truthy s = true ↔ s ≠ "".
Proof.
  unfold truthy. rewrite negb_true_iff. apply String.eqb_neq.
Qed.

Lemma getBaiduToken_cached p c :
  baiduToken c ≠ "" → (now c < lastBaiduTokenTime c)%Z →
  getBaiduToken p c = (Returned (mkTokenReply (baiduToken c)), c).
Proof.
  intros Htoken Hvalid. unfold getBaiduToken. run_handler.
  apply truthy_iff in Htoken. apply Z.ltb_lt in Hvalid.
  by rewrite Htoken, Hvalid.
Qed.

Lemma getBaiduToken_stale c :
  baiduToken c = "" ∨ (lastBaiduTokenTime c ≤ now c)%Z →
  truthy (baiduToken c) && (now c <? lastBaiduTokenTime c)%Z = false.
Proof.
  intros [Hnone | Hlate].
  - by rewrite Hnone.
  - apply andb_false_iff. right. by apply Z.ltb_ge.
Qed.

Lemma getBaiduToken_fetched p c res :
  baiduToken c = "" ∨ (lastBaiduTokenTime c ≤ now c)%Z →
  result p = Resolved res → status res = 200%Z →
  getBaiduToken p c =
    (Returned (mkTokenReply (access_token res)),
     mkTokenCache (access_token res)
       (now c + latency p + (expires_in res - 60 * 60 * 24) * 1000)
       (now c + latency p) (S (requests c))).
Proof.
  intros Hstale Hres Hok. unfold getBaiduToken. run_handler.
  rewrite (getBaiduToken_stale c Hstale).
  unfold axios_get. rewrite Hres, Hok. done.
Qed.

(** A request that is rejected, or answered with another status than 200,
    makes the call fail and leaves the cached token and its deadline as they
    were. *)
Lemma getBaiduToken_failed p c :
  baiduToken c = "" ∨ (lastBaiduTokenTime c ≤ now c)%Z →
  (∀ res, result p = Resolved res → status res ≠ 200%Z) →
  ∃ m c', getBaiduToken p c = (Thrown m, c') ∧
          baiduToken c' = baiduToken c ∧
          lastBaiduTokenTime c' = lastBaiduTokenTime c ∧
          requests c' = S (requests c).
Proof.
  intros Hstale Hbad. unfold getBaiduToken. run_handler.
  rewrite (getBaiduToken_stale c Hstale).
  unfold axios_get. destruct (result p) as [res | m] eqn:Hres.
  - specialize (Hbad res eq_refl). apply Z.eqb_neq in Hbad. rewrite Hbad.
    by eexists _, _.
  - by eexists _, _.
Qed.

Lemma getBaiduToken_one_request p c :
  baiduToken c = "" ∨ (lastBaiduTokenTime c ≤ now c)%Z →
  requests (final (getBaiduToken p c)) = S (requests c).
Proof.
  intros Hstale. destruct (result p) as [res | m] eqn:Hres.
  - destruct (decide (status res = 200%Z)) as [Hok | Hbad].
    + by rewrite (getBaiduToken_fetched p c res).
    + destruct (getBaiduToken_failed p c Hstale) as (m & c' & -> & _ & _ & Hreq);
        [|done]. intros res' Hres'. congruence.
  - destruct (getBaiduToken_failed p c Hstale) as (m' & c' & -> & _ & _ & Hreq);
      [|done]. intros res' Hres'. congruence.
Qed.

(** C7. When a token is cached ([baiduToken] is not empty) and the clock is
    before [lastBaiduTokenTime], [getBaiduToken] returns the cached token,
    sends no request and changes nothing. Otherwise it sends exactly one
    request; when that request is answered with status 200, the token of the
    answer is stored and returned, and [lastBaiduTokenTime] becomes the
    instant the answer arrived plus the lifetime [expires_in] given by the
    provider less a margin of one day, in milliseconds. *)
Theorem getBaiduToken_cases p c :
  (baiduToken c ≠ "" → (now c < lastBaiduTokenTime c)%Z →
     getBaiduToken p c = (Returned (mkTokenReply (baiduToken c)), c)) ∧
  (baiduToken c = "" ∨ (lastBaiduTokenTime c ≤ now c)%Z →
     requests (final (getBaiduToken p c)) = S (requests c) ∧
     ∀ res, result p = Resolved res → status res = 200%Z →
       ∃ c', getBaiduToken p c = (Returned (mkTokenReply (access_token res)), c') ∧
             baiduToken c' = access_token res ∧
             lastBaiduTokenTime c' =
               (now c' + (expires_in res - 60 * 60 * 24) * 1000)%Z ∧
             now c' = (now c + latency p)%Z).
Proof.
  split.
  - apply getBaiduToken_cached.
  - intros Hstale. split; [by apply getBaiduToken_one_request|].
    intros res Hres Hok. eexists. split; [by apply getBaiduToken_fetched|]. done.
Qed.

(** The module is loaded at the instant 5000. The first call sends one
    request, answered after 30 ms with a token good for thirty days; a second
    call sends none; a call made thirty days later sends one more and returns
    the new token. *)
Lemma getBaiduToken_cases_witness :
  let first := mkProvider 30 (Resolved (mkResponse 200 "t1" 2592000)) in
  let second := mkProvider 30 (Resolved (mkResponse 200 "t2" 2592000)) in
  let c1 := final (getBaiduToken first (loaded 5000)) in
  let later := mkTokenCache (baiduToken c1) (lastBaiduTokenTime c1)
                 (now c1 + 2592000000) (requests c1) in
  outcome (getBaiduToken first (loaded 5000)) = Returned (mkTokenReply "t1") ∧
  requests c1 = 1 ∧
  getBaiduToken second c1 = (Returned (mkTokenReply "t1"), c1) ∧
  outcome (getBaiduToken second later) = Returned (mkTokenReply "t2") ∧
  requests (final (getBaiduToken second later)) = 2.
Proof.
  intros first second c1 later.
  destruct (getBaiduToken_cases first (loaded 5000)) as [_ Hfirst].
  destruct Hfirst as [Hone Hfirst]; [by left|].
  destruct (Hfirst (mkResponse 200 "t1" 2592000)) as (c' & Hrun & _); [done..|].
  destruct (getBaiduToken_cases second later) as [_ Hlater].
  destruct Hlater as [Hmore Hlater]; [right; by vm_compute|].
  destruct (Hlater (mkResponse 200 "t2" 2592000)) as (c'' & Hrun' & _); [done..|].
  split_and!.
  - by rewrite Hrun.
  - exact Hone.
  - by apply (getBaiduToken_cases second c1).
  - by rewrite Hrun'.
  - by rewrite Hmore.
Defined.

(** ** [getSealList] *)

Lemma getSealList_run w :
  getSealList w =
    (Returned
       (mkSealList (map username (User_find_in (elements (sealUserList w)) w))
                   (elements (sealIpList w))),
     w).
Proof. reflexivity. Qed.

Lemma User_find_in_elements (ids : gset string) w u :
  u ∈ User_find_in (elements ids) w ↔ u ∈ userCollection w ∧ _id u ∈ ids.
Proof.
  unfold User_find_in. rewrite list_elem_of_In, filter_In, <- list_elem_of_In.
  by rewrite bool_decide_eq_true, elem_of_elements.
Qed.

Lemma getSealList_users w name :
  name ∈ users (mkSealList (map username (User_find_in (elements (sealUserList w)) w))
                           (elements (sealIpList w))) ↔
  ∃ u, u ∈ userCollection w ∧ _id u ∈ sealUserList w ∧ username u = name.
Proof.
  cbn [users]. change (map username ?l) with (username <$> l).
  rewrite list_elem_of_fmap. split.
  - intros (u & -> & Hu). apply User_find_in_elements in Hu as [? ?]. by exists u.
  - intros (u & Hu & Hid & <-). exists u. split; [done|].
    by apply User_find_in_elements.
Qed.

(** In a collection where no two documents share an identifier, a document
    is known by its identifier. *)
Lemma unique_by_id (l : list User) u v :
  NoDup (map _id l) → u ∈ l → v ∈ l → _id u = _id v → u = v.
Proof.
  induction l as [|x l IH]; cbn; intros Hnodup Hu Hv Hid.
  - by apply elem_of_nil in Hu.
  - apply NoDup_cons in Hnodup as [Hx Hnodup].
    change (map _id l) with (_id <$> l) in Hx.
    apply elem_of_cons in Hu as [-> | Hu], Hv as [-> | Hv].
    + done.
    + destruct Hx. rewrite Hid. by apply list_elem_of_fmap_2.
    + destruct Hx. rewrite <- Hid. by apply list_elem_of_fmap_2.
    + by apply IH.
Qed.

Lemma sealUserList_arm key value delay w :
  sealUserList (setTimeout key value delay (addMemoryData key value w)) =
  getMemoryData SealUserList (addMemoryData key value w).
Proof. by destruct key. Qed.

(** C9. [getSealList] changes nothing and returns, as [users], the user
    names of the documents of the user collection whose identifier is a key
    of the user seal list and, as [ips], the keys of the ip seal list
    themselves, each once. The order in which users were sealed does not
    show: sealing A then B, or B then A, from the same state gives the same
    result; and when nothing was sealed before and identifiers are unique in
    the collection, the set of names returned is exactly {A, B}. *)
Theorem getSealList_spec w :
  ∃ r, getSealList w = (Returned r, w) ∧
    (∀ name, name ∈ users r ↔
       ∃ u, u ∈ userCollection w ∧ _id u ∈ sealUserList w ∧ username u = name) ∧
    (∀ a, a ∈ ips r ↔ a ∈ sealIpList w) ∧
    NoDup (ips r) ∧
    (∀ T ctxA ctxB rA rB wA wAB,
       sealUser T ctxA w = (Returned rA, wA) →
       sealUser T ctxB wA = (Returned rB, wAB) →
       ∃ wB wBA,
         sealUser T ctxB w = (Returned rB, wB) ∧
         sealUser T ctxA wB = (Returned rA, wBA) ∧
         outcome (getSealList wBA) = outcome (getSealList wAB) ∧
         ∃ rAB, outcome (getSealList wAB) = Returned rAB ∧
           (sealUserList w = ∅ → NoDup (map _id (userCollection w)) →
            list_to_set (users rAB) = ({[data ctxA; data ctxB]} : gset string))).
Proof.
  eexists. split; [apply getSealList_run|]. split_and!.
  - apply getSealList_users.
  - intros a. cbn [ips]. apply elem_of_elements.
  - cbn [ips]. apply NoDup_elements.
  - intros T ctxA ctxB rA rB wA wAB HA HB.
    apply sealUser_returned in HA as (uA & -> & HnameA & HfindA & HfreshA & ->).
    apply sealUser_returned in HB as (uB & -> & HnameB & HfindB & HfreshB & ->).
    assert (User_findOne (data ctxB) w = Some uB) as HfindB' by exact HfindB.
    assert (_id uB ≠ _id uA ∧ _id uB ∉ sealUserList w) as [Hdiff HfreshB'].
    { rewrite sealUserList_arm, getMemoryData_add, decide_True in HfreshB by done.
      rewrite elem_of_union, elem_of_singleton in HfreshB. cbn in HfreshB. tauto. }
    eexists _, _. split_and!.
    + by apply (sealUser_ok _ _ _ uB).
    + apply (sealUser_ok _ _ _ uA); [done | exact HfindA |].
      rewrite sealUserList_arm, getMemoryData_add, decide_True by done.
      rewrite elem_of_union, elem_of_singleton. cbn. intros [? | ?]; [congruence | done].
    + rewrite !getSealList_run. unfold outcome. cbn [fst].
      rewrite !sealUserList_arm, !getMemoryData_add, !decide_True by done.
      cbn [getMemoryData setTimeout addMemoryData setMemoryData sealUserList sealIpList].
      assert (({[_id uA]} ∪ ({[_id uB]} ∪ sealUserList w) : gset string) =
              {[_id uB]} ∪ ({[_id uA]} ∪ sealUserList w)) as Hswap.
      { rewrite !(assoc_L (∪)). f_equal. apply (comm_L (∪)). }
      by rewrite Hswap.
    + eexists. split; [by rewrite getSealList_run|].
      intros Hempty Hunique. apply set_eq. intros name.
      rewrite elem_of_list_to_set, getSealList_users.
      rewrite !sealUserList_arm, !getMemoryData_add, !decide_True by done.
      cbn [getMemoryData setTimeout addMemoryData setMemoryData sealUserList
           userCollection].
      rewrite Hempty, union_empty_r_L.
      apply User_findOne_Some in HfindA as [HinA HnA].
      apply User_findOne_Some in HfindB as [HinB HnB].
      rewrite !elem_of_union, !elem_of_singleton. split.
      * intros (u & Hu & Hid & <-).
        apply elem_of_union in Hid as [Hid | Hid]; apply elem_of_singleton in Hid.
        -- right. rewrite <- HnB. f_equal. by apply (unique_by_id (userCollection w)).
        -- left. rewrite <- HnA. f_equal. by apply (unique_by_id (userCollection w)).
      * intros [-> | ->].
        -- exists uA. split_and!; [done | | done].
           apply elem_of_union. right. by apply elem_of_singleton.
        -- exists uB. split_and!; [done | | done].
           apply elem_of_union. left. by apply elem_of_singleton.
Qed.

(** Alice and Bob are sealed, in this order, in a state where nothing was:
    the names returned are those two. *)
Lemma getSealList_spec_witness :
  let wA := final (sealUser tenMinutes (mkContext "alice" admin) quiet) in
  let wAB := final (sealUser tenMinutes (mkContext "bob" admin) wA) in
  ∃ rAB, outcome (getSealList wAB) = Returned rAB ∧
         list_to_set (users rAB) = ({["alice"; "bob"]} : gset string).
Proof.
  intros wA wAB.
  destruct (getSealList_spec quiet) as (r & _ & _ & _ & _ & Horder).
  destruct (Horder tenMinutes (mkContext "alice" admin) (mkContext "bob" admin)
              (Msg "ok") (Msg "ok") wA wAB eq_refl eq_refl)
    as (wB & wBA & _ & _ & _ & rAB & Hout & Hset).
  exists rAB. split; [exact Hout|].
  apply Hset; [done | compute_done].
Defined.

(** * Further properties of the sealing handlers *)

(** ** One removal for each entry *)

(** X1. Along every history of handler calls and timer phases that starts
    in a consistent state (for one, the state of a fresh process), every
    entry of a seal list has exactly one queued removal, and a key that is
    not sealed has none. *)
Theorem every_entry_has_one_removal SealUserTimeout SealIpTimeout history w key value :
  consistent w →
  let w' := run SealUserTimeout SealIpTimeout history w in
  (value ∈ getMemoryData key w' → ∃ t, pending key value w' = [t]) ∧
  (value ∉ getMemoryData key w' → pending key value w' = []).
Proof.
  intros Hw w'.
  pose proof (run_consistent SealUserTimeout SealIpTimeout history w Hw key value) as H.
  fold w' in H. split; intros Hin.
  - by rewrite decide_True in H.
  - by rewrite decide_False in H.
Qed.

Lemma every_entry_has_one_removal_witness :
  let w' := run tenMinutes sixHours busyDay quiet in
  (∃ t, pending SealUserList "u1" w' = [t]) ∧
  pending SealIpList "9.9.9.9" w' = [].
Proof.
  intros w'.
  destruct (every_entry_has_one_removal tenMinutes sixHours busyDay quiet
              SealUserList "u1" (consistent_fresh quiet eq_refl eq_refl eq_refl))
    as [Hin _].
  destruct (every_entry_has_one_removal tenMinutes sixHours busyDay quiet
              SealIpList "9.9.9.9" (consistent_fresh quiet eq_refl eq_refl eq_refl))
    as [_ Hout].
  split; [apply Hin | apply Hout]; compute_done.
Defined.

(** The number of timers that carry one of the keys counted by [U] and [I],
    each key once. *)
Lemma count_timers (l : list Timer) : ∀ U I : gset string,
  (∀ key value,
     length (filter (λ t, timerKey t = key ∧ timerValue t = value) l) =
     if decide (value ∈ match key with SealUserList => U | SealIpList => I end)
     then 1 else 0) →
  length l = size U + size I.
Proof.
  induction l as [|t l IH]; intros U I Hcount.
  - assert (U = ∅) as ->.
    { apply set_eq. intros v. specialize (Hcount SealUserList v).
      rewrite filter_nil in Hcount. case_decide; [done|].
      split; [done|]. by intros ?%not_elem_of_empty. }
    assert (I = ∅) as ->.
    { apply set_eq. intros v. specialize (Hcount SealIpList v).
      rewrite filter_nil in Hcount. case_decide; [done|].
      split; [done|]. by intros ?%not_elem_of_empty. }
    by rewrite size_empty.
  - pose proof (Hcount (timerKey t) (timerValue t)) as Ht.
    rewrite filter_cons_True in Ht by done. cbn [length] in Ht.
    case_decide as Hin; [|done].
    set (U' := match timerKey t with
               | SealUserList => U ∖ {[timerValue t]} | SealIpList => U end).
    set (I' := match timerKey t with
               | SealUserList => I | SealIpList => I ∖ {[timerValue t]} end).
    assert (size U + size I = S (size U' + size I')) as ->.
    { unfold U', I'. destruct (timerKey t).
      - rewrite (size_difference U {[timerValue t]}), size_singleton
          by (by apply singleton_subseteq_l).
        assert (size U ≠ 0); [|lia].
        apply size_non_empty_iff. intros Hempty.
        rewrite (leibniz_equiv _ _ Hempty) in Hin. by apply not_elem_of_empty in Hin.
      - rewrite (size_difference I {[timerValue t]}), size_singleton
          by (by apply singleton_subseteq_l).
        assert (size I ≠ 0); [|lia].
        apply size_non_empty_iff. intros Hempty.
        rewrite (leibniz_equiv _ _ Hempty) in Hin. by apply not_elem_of_empty in Hin. }
    cbn [length]. f_equal. apply IH. intros key value.
    specialize (Hcount key value). rewrite filter_cons in Hcount.
    destruct (decide (timerKey t = key ∧ timerValue t = value)) as [[Hk Hv] | Hother].
    + subst key value. rewrite decide_True in Hcount by done.
      cbn [length] in Hcount. rewrite decide_False.
      * lia.
      * unfold U', I'. destruct (timerKey t);
          rewrite elem_of_difference, elem_of_singleton; tauto.
    + rewrite Hcount. unfold U', I'.
      destruct key, (timerKey t) eqn:Hk; try done;
        destruct (decide (value = timerValue t)) as [-> | Hne];
        try (destruct Hother; done);
        repeat case_decide; try done;
        rewrite elem_of_difference, elem_of_singleton in *; tauto.
Qed.

(** X2. Timers do not pile up: along every history that starts in a
    consistent state, the number of queued callbacks is the number of sealed
    users plus the number of sealed addresses. *)
Theorem timers_match_entries SealUserTimeout SealIpTimeout history w :
  consistent w →
  let w' := run SealUserTimeout SealIpTimeout history w in
  length (timers w') = size (sealUserList w') + size (sealIpList w').
Proof.
  intros Hw w'.
  pose proof (run_consistent SealUserTimeout SealIpTimeout history w Hw) as Hw'.
  fold w' in Hw'. apply count_timers. intros key value.
  specialize (Hw' key value). unfold pending in Hw'.
  change (match key with
          | SealUserList => sealUserList w'
          | SealIpList => sealIpList w'
          end) with (getMemoryData key w').
  case_decide; [by destruct Hw' as [t ->] | by rewrite Hw'].
Qed.

Lemma timers_match_entries_witness :
  let w' := run tenMinutes sixHours busyDay quiet in
  length (timers w') = size (sealUserList w') + size (sealIpList w').
Proof.
  apply (timers_match_entries tenMinutes sixHours busyDay quiet).
  by apply consistent_fresh.
Defined.

(** ** What is never sealed *)

Lemma sealIp_returned_free SealIpTimeout ctx w r w1 :
  sealIp SealIpTimeout ctx w = (Returned r, w1) → ¬ Barred ctx (data ctx).
Proof.
  intros Hrun [Hlocal | Hself].
  - rewrite sealIp_local in Hrun by done. discriminate.
  - destruct (decide (Loopback (data ctx))) as [Hlocal | Hremote].
    + rewrite sealIp_local in Hrun by done. discriminate.
    + unfold Loopback in Hremote. rewrite sealIp_self in Hrun by tauto. discriminate.
Qed.

Lemma sealIp_added SealIpTimeout ctx w a :
  a ∈ sealIpList (final (sealIp SealIpTimeout ctx w)) →
  a ∈ sealIpList w ∨ (a = data ctx ∧ ¬ Barred ctx a).
Proof.
  destruct (sealIp SealIpTimeout ctx w) as [[r | m] w'] eqn:Hrun; cbn.
  - pose proof (sealIp_returned_free _ _ _ _ _ Hrun) as Hfree.
    apply sealIp_returned in Hrun as [_ ->]. cbn.
    rewrite elem_of_union, elem_of_singleton. intros [-> | Hin]; auto.
  - apply sealIp_thrown in Hrun as ->. auto.
Qed.

Lemma sealUserOnlineIp_added SealIpTimeout ctx w a :
  a ∈ sealIpList (final (sealUserOnlineIp SealIpTimeout ctx w)) →
  a ∈ sealIpList w ∨ (a ∈ onlineIps (data ctx) w ∧ ¬ Barred ctx a).
Proof.
  destruct (decide (Forall (λ a, a ∈ sealIpList w) (onlineIps (data ctx) w)))
    as [Hall | Hsome].
  - rewrite sealUserOnlineIp_refused; [auto|]. by apply Forall_forall.
  - apply not_Forall_Exists in Hsome; [|apply _].
    apply Exists_exists in Hsome. rewrite sealUserOnlineIp_rounds by done.
    cbn. rewrite foldl_sealFresh_sealIpList, elem_of_union, elem_of_list_to_set.
    rewrite list_elem_of_filter. tauto.
Qed.

Lemma sealUser_sealIpList SealUserTimeout ctx w :
  sealIpList (final (sealUser SealUserTimeout ctx w)) = sealIpList w.
Proof.
  destruct (sealUser SealUserTimeout ctx w) as [[r | m] w'] eqn:Hrun; cbn.
  - by apply sealUser_returned in Hrun as (u & _ & _ & _ & _ & ->).
  - by apply sealUser_thrown in Hrun as ->.
Qed.

Lemma runTimers_subset key value now w :
  value ∈ getMemoryData key (runTimers now w) → value ∈ getMemoryData key w.
Proof. rewrite runTimers_store. tauto. Qed.

(** X3. A loopback address ('::1' or '127.0.0.1') is never sealed: when the
    ip seal list holds none, it holds none after any history of handler
    calls and timer phases, whoever the requesters are and wherever the
    sealed users are connected from. *)
Theorem loopback_never_sealed SealUserTimeout SealIpTimeout history : ∀ w,
  (∀ a, a ∈ sealIpList w → ¬ Loopback a) →
  ∀ a, a ∈ sealIpList (run SealUserTimeout SealIpTimeout history w) → ¬ Loopback a.
Proof.
  unfold run. induction history as [|e history IH]; intros w Hw; cbn [foldl]; [done|].
  apply IH. intros a Ha. destruct e; cbn [perform] in Ha.
  - apply Hw. by apply (runTimers_subset SealIpList) in Ha.
  - rewrite sealUser_sealIpList in Ha. by apply Hw.
  - apply sealIp_added in Ha as [Ha | [_ Hfree]]; [by apply Hw|].
    unfold Barred in Hfree. tauto.
  - apply sealUserOnlineIp_added in Ha as [Ha | [_ Hfree]]; [by apply Hw|].
    unfold Barred in Hfree. tauto.
Qed.

(** Bob is online from 127.0.0.1: after a history that seals his online
    addresses, 127.0.0.1 is not in the ip seal list. *)
Lemma loopback_never_sealed_witness :
  "127.0.0.1" ∉ sealIpList (run tenMinutes sixHours busyDay quiet).
Proof.
  intros Hin.
  apply (loopback_never_sealed tenMinutes sixHours busyDay quiet) in Hin.
  - apply Hin. by right.
  - intros a Ha. by apply not_elem_of_empty in Ha.
Defined.

(** X4. A call of [sealIp] or [sealUserOnlineIp] adds to the ip seal list
    nothing but what it was asked for, and never an address it bars: what
    [sealIp] adds is the address of the request, what [sealUserOnlineIp] adds
    are addresses of live sockets of the target, and in both cases neither a
    loopback address nor the address of the requester. *)
Theorem only_free_addresses_sealed SealIpTimeout ctx w a :
  (a ∈ sealIpList (final (sealIp SealIpTimeout ctx w)) →
   a ∉ sealIpList w → a = data ctx ∧ ¬ Loopback a ∧ a ≠ ip (socket ctx)) ∧
  (a ∈ sealIpList (final (sealUserOnlineIp SealIpTimeout ctx w)) →
   a ∉ sealIpList w →
   a ∈ onlineIps (data ctx) w ∧ ¬ Loopback a ∧ a ≠ ip (socket ctx)).
Proof.
  split; intros Hin Hnew.
  - apply sealIp_added in Hin as [Hin | [-> Hfree]]; [done|].
    unfold Barred in Hfree. tauto.
  - apply sealUserOnlineIp_added in Hin as [Hin | [Hlive Hfree]]; [done|].
    unfold Barred in Hfree. tauto.
Qed.

(** Carol is online from the address of the administrator and from 6.6.6.6:
    only the second is added. *)
Lemma only_free_addresses_sealed_witness :
  "6.6.6.6" ∈ onlineIps "u3" quiet ∧ "6.6.6.6" ≠ ip admin.
Proof.
  destruct (only_free_addresses_sealed sixHours (mkContext "u3" admin) quiet "6.6.6.6")
    as [_ H].
  destruct H as (Hlive & _ & Hother); [compute_done..|]. done.
Defined.

(** ** Sealed until the deadline, and not beyond *)

Lemma keeps_refl w : keeps w w.
Proof. by intros key value Hin. Qed.

Lemma keeps_trans w1 w2 w3 : keeps w1 w2 → keeps w2 w3 → keeps w1 w3.
Proof.
  intros H12 H23 key value Hin.
  destruct (H12 key value Hin) as [Hin2 Hp2].
  destruct (H23 key value Hin2) as [Hin3 Hp3].
  split; [done|]. by rewrite Hp3.
Qed.

Lemma keeps_arm key value delay w :
  value ∉ getMemoryData key w →
  keeps w (setTimeout key value delay (addMemoryData key value w)).
Proof.
  intros Hfresh key' value' Hin. split.
  - rewrite getMemoryData_setTimeout, getMemoryData_add.
    case_decide; [|done]. apply elem_of_union. by right.
  - unfold pending. cbn [timers setTimeout].
    rewrite timers_add, filter_app, filter_singleton; [|exact []]. cbn.
    rewrite decide_False; [by rewrite app_nil_r|].
    intros [-> ->]. done.
Qed.

Lemma keeps_sealUser SealUserTimeout ctx w :
  keeps w (final (sealUser SealUserTimeout ctx w)).
Proof.
  destruct (sealUser SealUserTimeout ctx w) as [[r | m] w'] eqn:Hrun; cbn.
  - apply sealUser_returned in Hrun as (u & _ & _ & _ & Hfresh & ->).
    by apply keeps_arm.
  - apply sealUser_thrown in Hrun as ->. apply keeps_refl.
Qed.

Lemma keeps_sealIp SealIpTimeout ctx w :
  keeps w (final (sealIp SealIpTimeout ctx w)).
Proof.
  destruct (sealIp SealIpTimeout ctx w) as [[r | m] w'] eqn:Hrun; cbn.
  - apply sealIp_returned in Hrun as (Hfresh & ->). by apply keeps_arm.
  - apply sealIp_thrown in Hrun as ->. apply keeps_refl.
Qed.

Lemma keeps_foldl_sealFresh SealIpTimeout ctx l : ∀ w,
  keeps w (foldl (sealFresh SealIpTimeout ctx) w l).
Proof.
  induction l as [|a l IH]; intros w; cbn [foldl]; [apply keeps_refl|].
  eapply keeps_trans; [|apply IH].
  unfold sealFresh. case_decide as H; [apply keeps_refl|].
  apply keeps_arm. cbn. tauto.
Qed.

Lemma keeps_sealUserOnlineIp SealIpTimeout ctx w :
  keeps w (final (sealUserOnlineIp SealIpTimeout ctx w)).
Proof.
  destruct (decide (Forall (λ a, a ∈ sealIpList w) (onlineIps (data ctx) w)))
    as [Hall | Hsome].
  - rewrite sealUserOnlineIp_refused; [apply keeps_refl|]. by apply Forall_forall.
  - apply not_Forall_Exists in Hsome; [|apply _].
    apply Exists_exists in Hsome. rewrite sealUserOnlineIp_rounds by done.
    apply keeps_foldl_sealFresh.
Qed.

Lemma filter_all {A} (P : A → Prop) `{∀ x, Decision (P x)} (l : list A) :
  (∀ x, x ∈ l → P x) → filter P l = l.
Proof.
  induction l as [|x l IH]; intros Hl; [done|].
  rewrite filter_cons_True by (apply Hl; left).
  rewrite IH; [done|]. intros y Hy. apply Hl. by right.
Qed.

Lemma keeps_runTimers key value now w :
  value ∈ getMemoryData key w →
  (∀ t, t ∈ pending key value w → (now < fireAt t)%Z) →
  value ∈ getMemoryData key (runTimers now w) ∧
  pending key value (runTimers now w) = pending key value w.
Proof.
  intros Hin Hlate. split.
  - by apply runTimers_store.
  - rewrite runTimers_pending. apply filter_all.
    intros t Ht. by apply due_false, Hlate.
Qed.

(** X5. Nothing but its own timer takes a seal away, and nothing moves the
    timer: an entry of a seal list stays there, with the same queued
    removals, through every history of handler calls and timer phases whose
    timer phases all run before the removals of the entry are due. *)
Theorem sealed_until_deadline SealUserTimeout SealIpTimeout history : ∀ w key value,
  value ∈ getMemoryData key w →
  (∀ now t, Tick now ∈ history → t ∈ pending key value w → (now < fireAt t)%Z) →
  value ∈ getMemoryData key (run SealUserTimeout SealIpTimeout history w) ∧
  pending key value (run SealUserTimeout SealIpTimeout history w) =
    pending key value w.
Proof.
  unfold run. induction history as [|e history IH]; intros w key value Hin Hlate;
    cbn [foldl]; [done|].
  assert (value ∈ getMemoryData key (perform SealUserTimeout SealIpTimeout w e) ∧
          pending key value (perform SealUserTimeout SealIpTimeout w e) =
          pending key value w) as [Hin' Hsame].
  { destruct e as [now | ctx | ctx | ctx]; cbn [perform].
    - apply keeps_runTimers; [done|]. intros t Ht. apply (Hlate now t); [left | done].
    - by apply keeps_sealUser.
    - by apply keeps_sealIp.
    - by apply keeps_sealUserOnlineIp. }
  rewrite <- Hsame. apply IH; [done|].
  intros now t Hnow Ht. rewrite Hsame in Ht. apply Hlate; [by right | done].
Qed.

(** 3.3.3.3 is sealed at the instant 1000; whatever the history [shortWhile]
    does, it is still sealed at the end, its removal still due six hours
    after 1000. *)
Lemma sealed_until_deadline_witness :
  let w := final (sealIp sixHours (mkContext "3.3.3.3" admin) quiet) in
  "3.3.3.3" ∈ sealIpList (run tenMinutes sixHours shortWhile w) ∧
  pending SealIpList "3.3.3.3" (run tenMinutes sixHours shortWhile w) =
    [mkTimer (1000 + sixHours) SealIpList "3.3.3.3"].
Proof.
  intros w.
  destruct (sealed_until_deadline tenMinutes sixHours shortWhile w SealIpList "3.3.3.3")
    as [Hin Hsame].
  - compute_done.
  - intros now t Hnow Ht.
    assert (now = 5000%Z) as ->.
    { unfold shortWhile in Hnow.
      repeat (apply elem_of_cons in Hnow as [Hnow | Hnow]; [by inversion Hnow|]).
      by apply elem_of_nil in Hnow. }
    change (pending SealIpList "3.3.3.3" w)
      with [mkTimer (1000 + sixHours) SealIpList "3.3.3.3"] in Ht.
    apply list_elem_of_singleton in Ht as ->. done.
  - split; [exact Hin|]. by rewrite Hsame.
Defined.

Lemma clock_runTimers now w : clock (runTimers now w) = Z.max (clock w) now.
Proof. reflexivity. Qed.

(** An entry whose time is up is gone after the timer phase, together with
    its removal; the state stays consistent. *)
Lemma expired_entry key value delay now w :
  consistent w → value ∉ getMemoryData key w → (clock w + delay ≤ now)%Z →
  let w2 := runTimers now (setTimeout key value delay (addMemoryData key value w)) in
  (value ∉ getMemoryData key w2) ∧ pending key value w2 = [] ∧ consistent w2.
Proof.
  intros Hw Hfresh Hnow w2.
  assert (pending key value w = []) as Hnone.
  { specialize (Hw key value). by rewrite decide_False in Hw. }
  split_and!.
  - unfold w2. rewrite runTimers_store, pending_arm, Hnone. intros [_ Hlate].
    specialize (Hlate (mkTimer (clock w + delay) key value)). cbn in Hlate.
    assert (clock w + delay < clock w + delay)%Z; [|lia].
    eapply Z.le_lt_trans; [exact Hnow|]. apply Hlate. left.
  - unfold w2. rewrite runTimers_pending, pending_arm, Hnone. cbn [app].
    rewrite filter_singleton; [|exact []]. rewrite decide_False; [done|].
    rewrite due_false. cbn. lia.
  - unfold w2. by apply runTimers_consistent, consistent_arm.
Qed.

(** X6. A seal that has run out can be set again, and then lasts its full
    time: in a consistent state, once [sealIp] (or [sealUser]) has succeeded
    at the instant [clock w] and the timer phase has run at or after
    [clock w] plus the timeout, the entry is gone, the same call succeeds
    again, and the one removal queued for the entry is due a full timeout
    after the instant of the second call. *)
Theorem seal_again_after_expiry SealUserTimeout SealIpTimeout ctx w now :
  consistent w →
  (∀ r w1,
     sealIp SealIpTimeout ctx w = (Returned r, w1) →
     (clock w + SealIpTimeout ≤ now)%Z →
     let w2 := runTimers now w1 in
     (data ctx ∉ sealIpList w2) ∧
     ∃ w3, sealIp SealIpTimeout ctx w2 = (Returned (Msg "ok"), w3) ∧
           pending SealIpList (data ctx) w3 =
             [mkTimer (Z.max (clock w) now + SealIpTimeout) SealIpList (data ctx)]) ∧
  (∀ r w1 u,
     sealUser SealUserTimeout ctx w = (Returned r, w1) →
     User_findOne (data ctx) w = Some u →
     (clock w + SealUserTimeout ≤ now)%Z →
     let w2 := runTimers now w1 in
     (_id u ∉ sealUserList w2) ∧
     ∃ w3, sealUser SealUserTimeout ctx w2 = (Returned (Msg "ok"), w3) ∧
           pending SealUserList (_id u) w3 =
             [mkTimer (Z.max (clock w) now + SealUserTimeout) SealUserList (_id u)]).
Proof.
  intros Hw. split.
  - intros r w1 Hrun Hnow w2.
    pose proof (sealIp_returned_free _ _ _ _ _ Hrun) as Hfree.
    apply sealIp_returned in Hrun as [Hfresh ->].
    destruct (expired_entry SealIpList (data ctx) SealIpTimeout now w Hw Hfresh Hnow)
      as (Hgone & Hnone & _).
    fold w2 in Hgone, Hnone. split; [done|].
    unfold Barred, Loopback in Hfree.
    eexists. split; [apply sealIp_ok; tauto|].
    rewrite pending_arm, Hnone. cbn [app]. unfold w2.
    by rewrite clock_runTimers.
  - intros r w1 u Hrun Hfound Hnow w2.
    apply sealUser_returned in Hrun as (u' & _ & Hname & Hfound' & Hfresh & ->).
    assert (u' = u) as -> by congruence.
    destruct (expired_entry SealUserList (_id u) SealUserTimeout now w Hw Hfresh Hnow)
      as (Hgone & Hnone & _).
    fold w2 in Hgone, Hnone. split; [done|].
    eexists. split; [by apply (sealUser_ok _ _ _ u)|].
    rewrite pending_arm, Hnone. cbn [app]. unfold w2.
    by rewrite clock_runTimers.
Qed.

(** 3.3.3.3 is sealed at the instant 1000 for six hours; the timer phase
    runs seven hours later; sealed again then, it is due six hours after
    that. *)
Lemma seal_again_after_expiry_witness :
  let ctx := mkContext "3.3.3.3" admin in
  let w2 := runTimers 25201000 (final (sealIp sixHours ctx quiet)) in
  ("3.3.3.3" ∉ sealIpList w2) ∧
  ∃ w3, sealIp sixHours ctx w2 = (Returned (Msg "ok"), w3) ∧
        pending SealIpList "3.3.3.3" w3 = [mkTimer 46801000 SealIpList "3.3.3.3"].
Proof.
  intros ctx w2.
  destruct (seal_again_after_expiry tenMinutes sixHours ctx quiet 25201000
              (consistent_fresh quiet eq_refl eq_refl eq_refl)) as [Hip _].
  destruct (Hip (Msg "ok") (final (sealIp sixHours ctx quiet)) eq_refl)
    as (Hgone & w3 & Hrun & Hone); [done|].
  split; [exact Hgone|]. exists w3. split; [exact Hrun | exact Hone].
Defined.

(** ** Sealing the online addresses twice *)

Lemma foldl_sealFresh_skip SealIpTimeout ctx l : ∀ w,
  (∀ a, a ∈ l → Barred ctx a ∨ a ∈ sealIpList w) →
  foldl (sealFresh SealIpTimeout ctx) w l = w.
Proof.
  induction l as [|a l IH]; intros w Hl; cbn [foldl]; [done|].
  unfold sealFresh at 2. rewrite decide_True by (apply Hl; left).
  apply IH. intros b Hb. apply Hl. by right.
Qed.

Lemma onlineIps_foldl_sealFresh SealIpTimeout ctx l userId w :
  onlineIps userId (foldl (sealFresh SealIpTimeout ctx) w l) = onlineIps userId w.
Proof.
  unfold onlineIps, Socket_find.
  by destruct (foldl_sealFresh_frame SealIpTimeout ctx l w) as (_ & _ & _ & ->).
Qed.

(** X7. Asking twice is asking once: a second call of [sealUserOnlineIp]
    with the same request, right after the first, changes nothing more; and
    when the first call replied [{ msg: 'ok' }], the second is refused with
    the already-sealed message. *)
Theorem sealUserOnlineIp_twice SealIpTimeout ctx w :
  let w1 := final (sealUserOnlineIp SealIpTimeout ctx w) in
  final (sealUserOnlineIp SealIpTimeout ctx w1) = w1 ∧
  (outcome (sealUserOnlineIp SealIpTimeout ctx w) = Returned (Msg "ok") →
   sealUserOnlineIp SealIpTimeout ctx w1 = (Thrown IpInSealList, w1)).
Proof.
  intros w1. unfold w1.
  destruct (decide (Forall (λ a, a ∈ sealIpList w) (onlineIps (data ctx) w)))
    as [Hall | Hsome].
  { rewrite Forall_forall in Hall.
    rewrite !(sealUserOnlineIp_refused SealIpTimeout ctx w Hall). cbn [final snd].
    rewrite (sealUserOnlineIp_refused SealIpTimeout ctx w Hall). done. }
  apply not_Forall_Exists in Hsome; [|apply _]. apply Exists_exists in Hsome.
  rewrite !(sealUserOnlineIp_rounds SealIpTimeout ctx w Hsome). cbn [final outcome fst snd].
  set (l := onlineIps (data ctx) w).
  set (w' := foldl (sealFresh SealIpTimeout ctx) w l).
  assert (onlineIps (data ctx) w' = l) as Hsame
    by apply onlineIps_foldl_sealFresh.
  assert (∀ a, a ∈ l → Barred ctx a ∨ a ∈ sealIpList w') as Hdone.
  { intros a Ha. destruct (decide (Barred ctx a)) as [? | Hfree]; [by left|].
    right. unfold w'. rewrite foldl_sealFresh_sealIpList.
    apply elem_of_union. right. apply elem_of_list_to_set.
    by apply list_elem_of_filter. }
  split.
  - destruct (decide (Forall (λ a, a ∈ sealIpList w') (onlineIps (data ctx) w')))
      as [Hall | Hsome'].
    + rewrite Forall_forall in Hall. by rewrite sealUserOnlineIp_refused.
    + apply not_Forall_Exists in Hsome'; [|apply _]. apply Exists_exists in Hsome'.
      rewrite sealUserOnlineIp_rounds by done. cbn [final snd].
      rewrite Hsame. by apply foldl_sealFresh_skip.
  - intros Hok. apply sealUserOnlineIp_refused. rewrite Hsame.
    intros a Ha. destruct (Hdone a Ha) as [Hbarred | Hin]; [|done].
    assert (Exists (Barred ctx) l) as Hex by (apply Exists_exists; eauto).
    destruct (noteViolation_some ctx l "" Hex) as [Hm | Hm];
      rewrite Hm in Hok; discriminate.
Qed.

(** ** Sealing and listing *)

(** X8. What has been sealed is listed: right after a successful
    [sealUser] the name of the request is among the [users] of
    [getSealList], right after a successful [sealIp] the address of the
    request is among its [ips], and after [sealUserOnlineIp] has returned,
    with [{ msg: 'ok' }] or with a violation message, so is every address of
    the target's live sockets that is neither a loopback address nor the
    requester's own. *)
Theorem sealed_is_listed SealUserTimeout SealIpTimeout ctx w :
  (∀ r w1, sealUser SealUserTimeout ctx w = (Returned r, w1) →
     ∃ l, getSealList w1 = (Returned l, w1) ∧ data ctx ∈ users l) ∧
  (∀ r w1, sealIp SealIpTimeout ctx w = (Returned r, w1) →
     ∃ l, getSealList w1 = (Returned l, w1) ∧ data ctx ∈ ips l) ∧
  (∀ r w1 a, sealUserOnlineIp SealIpTimeout ctx w = (Returned r, w1) →
     a ∈ onlineIps (data ctx) w → ¬ Barred ctx a →
     ∃ l, getSealList w1 = (Returned l, w1) ∧ a ∈ ips l).
Proof.
  split_and!.
  - intros r w1 Hrun.
    apply sealUser_returned in Hrun as (u & _ & _ & Hfound & _ & ->).
    eexists. split; [apply getSealList_run|].
    apply getSealList_users. exists u.
    apply User_findOne_Some in Hfound as [Hu Hname].
    split_and!; [done | | done].
    rewrite sealUserList_arm, getMemoryData_add, decide_True by done.
    apply elem_of_union. left. by apply elem_of_singleton.
  - intros r w1 Hrun. apply sealIp_returned in Hrun as (_ & ->).
    eexists. split; [apply getSealList_run|].
    cbn [ips]. apply elem_of_elements. cbn.
    apply elem_of_union. left. by apply elem_of_singleton.
  - intros r w1 a Hrun Ha Hfree.
    destruct (decide (Forall (λ a, a ∈ sealIpList w) (onlineIps (data ctx) w)))
      as [Hall | Hsome].
    { rewrite Forall_forall in Hall.
      rewrite sealUserOnlineIp_refused in Hrun by done. discriminate. }
    apply not_Forall_Exists in Hsome; [|apply _]. apply Exists_exists in Hsome.
    rewrite sealUserOnlineIp_rounds in Hrun by done.
    injection Hrun as _ <-.
    eexists. split; [apply getSealList_run|].
    cbn [ips]. apply elem_of_elements. rewrite foldl_sealFresh_sealIpList.
    apply elem_of_union. right. apply elem_of_list_to_set.
    by apply list_elem_of_filter.
Qed.

(** Bob is online from the server itself and from 5.5.5.5: the call on his
    addresses returns a violation message, and 5.5.5.5 is listed. *)
Lemma sealed_is_listed_witness :
  let w1 := final (sealUserOnlineIp sixHours (mkContext "u2" admin) quiet) in
  ∃ l, getSealList w1 = (Returned l, w1) ∧ "5.5.5.5" ∈ ips l.
Proof.
  intros w1.
  destruct (sealed_is_listed tenMinutes sixHours (mkContext "u2" admin) quiet)
    as (_ & _ & H).
  apply (H (Text CantSealLocalIp) w1 "5.5.5.5"); [done | compute_done..].
Defined.

(** Alice is online from 3.3.3.3 and 4.4.4.4: the first call seals both, the
    second is refused. *)
Lemma sealUserOnlineIp_twice_witness :
  let ctx := mkContext "u1" admin in
  let w1 := final (sealUserOnlineIp sixHours ctx quiet) in
  sealUserOnlineIp sixHours ctx w1 = (Thrown IpInSealList, w1).
Proof.
  intros ctx w1.
  destruct (sealUserOnlineIp_twice sixHours ctx quiet) as [_ H]. by apply H.
Defined.

(** * Further properties of the token cache *)

Lemma getBaiduToken_fresh_or_stale c :
  (baiduToken c ≠ "" ∧ (now c < lastBaiduTokenTime c)%Z) ∨
  (baiduToken c = "" ∨ (lastBaiduTokenTime c ≤ now c)%Z).
Proof.
  destruct (decide (baiduToken c = "")) as [? | ?]; [by right; left|].
  destruct (Z.lt_ge_cases (now c) (lastBaiduTokenTime c)); [by left | by right; right].
Qed.

(** X9. A token is never served from the cache at or after its deadline:
    whenever [getBaiduToken] returns a token, either the call has sent no
    request, changed nothing, and returned the cached, non-empty token while
    the clock was before [lastBaiduTokenTime]; or the call has sent exactly
    one request, the request was answered with status 200, and the token
    returned is the token of that answer. *)
Theorem getBaiduToken_returned p c r c' :
  getBaiduToken p c = (Returned r, c') →
  (c' = c ∧ token r = baiduToken c ∧ baiduToken c ≠ "" ∧
   (now c < lastBaiduTokenTime c)%Z) ∨
  (requests c' = S (requests c) ∧
   ∃ res, result p = Resolved res ∧ status res = 200%Z ∧
          token r = access_token res ∧ baiduToken c' = access_token res).
Proof.
  intros Hrun.
  destruct (getBaiduToken_fresh_or_stale c) as [[Htoken Hvalid] | Hstale].
  - left. rewrite getBaiduToken_cached in Hrun by done.
    injection Hrun as <- <-. done.
  - right. destruct (result p) as [res | m] eqn:Hres.
    + destruct (decide (status res = 200%Z)) as [Hok | Hbad].
      * rewrite (getBaiduToken_fetched p c res) in Hrun by done.
        injection Hrun as <- <-. split; [done|]. by exists res.
      * destruct (getBaiduToken_failed p c Hstale) as (m & c'' & Hfail & _).
        { intros res' Hres'. congruence. }
        rewrite Hfail in Hrun. discriminate.
    + destruct (getBaiduToken_failed p c Hstale) as (m' & c'' & Hfail & _).
      { intros res' Hres'. congruence. }
      rewrite Hfail in Hrun. discriminate.
Qed.

Lemma getBaiduToken_returned_witness :
  let p := mkProvider 30 (Resolved (mkResponse 200 "t1" 2592000)) in
  requests (final (getBaiduToken p (loaded 5000))) = 1 ∧
  baiduToken (final (getBaiduToken p (loaded 5000))) = "t1".
Proof.
  intros p.
  destruct (getBaiduToken_returned p (loaded 5000) (mkTokenReply "t1")
              (final (getBaiduToken p (loaded 5000))) eq_refl)
    as [(_ & _ & Hcached & _) | (Hone & res & Hres & _ & _ & Htoken)].
  - by destruct Hcached.
  - split; [exact Hone|]. rewrite Htoken. by injection Hres as <-.
Defined.

(** X10. A token that the provider gives for one day or less, or an empty
    token, is never served from the cache: after a call that stored such an
    answer, every later call sends a request again. The deadline is the
    arrival time plus [expires_in] less one day, so it is not after the
    arrival; and an empty [baiduToken] counts as no token. *)
Theorem short_lived_token_not_cached p c res p' c' :
  baiduToken c = "" ∨ (lastBaiduTokenTime c ≤ now c)%Z →
  result p = Resolved res → status res = 200%Z →
  (expires_in res ≤ 60 * 60 * 24)%Z ∨ access_token res = "" →
  let c1 := final (getBaiduToken p c) in
  baiduToken c' = baiduToken c1 →
  lastBaiduTokenTime c' = lastBaiduTokenTime c1 →
  (now c1 ≤ now c')%Z →
  requests (final (getBaiduToken p' c')) = S (requests c').
Proof.
  intros Hstale Hres Hok Hshort c1 Htoken Hlast Hlater.
  unfold c1 in *. rewrite (getBaiduToken_fetched p c res) in * by done.
  cbn [final snd baiduToken lastBaiduTokenTime now] in *.
  apply getBaiduToken_one_request.
  destruct Hshort as [Hshort | Hempty].
  - right. rewrite Hlast. lia.
  - left. by rewrite Htoken.
Qed.

(** The provider gives a token for one hour: the next call, a minute later,
    asks again. *)
Lemma short_lived_token_not_cached_witness :
  let p := mkProvider 30 (Resolved (mkResponse 200 "t1" 3600)) in
  let c1 := final (getBaiduToken p (loaded 5000)) in
  let c' := mkTokenCache (baiduToken c1) (lastBaiduTokenTime c1) (now c1 + 60000)
              (requests c1) in
  requests (final (getBaiduToken p c')) = 2.
Proof.
  intros p c1 c'.
  apply (short_lived_token_not_cached p (loaded 5000) (mkResponse 200 "t1" 3600) p c');
    try done.
  - by left.
  - by left.
Defined.

(** X11. A refresh that fails keeps what was cached: when the request is
    rejected, the call throws the message of the rejection; when it is
    answered with another status than 200, the call throws the
    request-failed message; in both cases [baiduToken] and
    [lastBaiduTokenTime] are as before, one request has been sent, and, time
    not running backwards, the next call sends a request again. *)
Theorem failed_refresh_keeps_token p c :
  baiduToken c = "" ∨ (lastBaiduTokenTime c ≤ now c)%Z →
  (∀ res, result p = Resolved res → status res ≠ 200%Z) →
  ∃ m c',
    getBaiduToken p c = (Thrown m, c') ∧
    (∀ message, result p = Rejected message → m = message) ∧
    (∀ res, result p = Resolved res → m = "请求百度token失败") ∧
    baiduToken c' = baiduToken c ∧
    lastBaiduTokenTime c' = lastBaiduTokenTime c ∧
    requests c' = S (requests c) ∧
    ((0 ≤ latency p)%Z →
     ∀ p', requests (final (getBaiduToken p' c')) = S (requests c')).
Proof.
  intros Hstale Hbad.
  assert (∀ c', baiduToken c' = baiduToken c →
                lastBaiduTokenTime c' = lastBaiduTokenTime c →
                now c' = (now c + latency p)%Z →
                (0 ≤ latency p)%Z →
                ∀ p', requests (final (getBaiduToken p' c')) = S (requests c'))
    as Hretry.
  { intros c' Htoken Hlast Hnow Hpos p'. apply getBaiduToken_one_request.
    rewrite Htoken, Hlast, Hnow. destruct Hstale; [by left | right; lia]. }
  unfold getBaiduToken. run_handler.
  rewrite (getBaiduToken_stale c Hstale).
  unfold axios_get. destruct (result p) as [res | m] eqn:Hres.
  - specialize (Hbad res eq_refl). apply Z.eqb_neq in Hbad. rewrite Hbad.
    eexists _, _. split; [done|]. split_and!; try done.
    by apply Hretry.
  - eexists _, _. split; [done|]. split_and!; try done.
    + by intros message [= ->].
    + by apply Hretry.
Qed.

(** The first request of a fresh process is rejected: the call throws, no
    token is stored, and the next call asks again. *)
Lemma failed_refresh_keeps_token_witness :
  let p := mkProvider 30 (Rejected "timeout of 0ms exceeded") in
  ∃ c', getBaiduToken p (loaded 5000) = (Thrown "timeout of 0ms exceeded", c') ∧
        baiduToken c' = "" ∧
        requests (final (getBaiduToken p c')) = 2.
Proof.
  intros p.
  destruct (failed_refresh_keeps_token p (loaded 5000))
    as (m & c' & Hrun & Hm & _ & Htoken & _ & Hone & Hretry).
  - by left.
  - intros res [=].
  - exists c'. rewrite Hrun, (Hm "timeout of 0ms exceeded" eq_refl).
    split; [done|]. split; [exact Htoken|].
    rewrite Hretry; [|done]. by rewrite Hone.
Defined.

(** * [uploadFile] *)

(** X12. [uploadFile] is refused, with the use-qiniu message and before the
    file system is touched, exactly when the access key, the bucket and the
    url prefix of qiniu are all three set. With one of them empty the call
    never throws: it asks the file system once to write the content at
    [../../public/<fileName>] seen from the directory of the module, and
    replies [{ url: '/<fileName>' }] when the write succeeds; when the write
    fails, the error goes to the console and the reply is the string
    '上传文件失败:' followed by the message of the error. *)
Theorem uploadFile_cases config dirname resolve failure ctx d :
  let path := resolve dirname ("../../public/" ++ fileName (data ctx)) in
  let d' := mkDisk (writes d ++ [(path, file (data ctx))]) (console d) in
  (qiniuAccessKey config ≠ "" ∧ qiniuBucket config ≠ "" ∧ qiniuUrlPrefix config ≠ "" →
   uploadFile config dirname resolve failure ctx d =
     (Thrown "已配置七牛, 请使用七牛文件上传", d)) ∧
  (qiniuAccessKey config = "" ∨ qiniuBucket config = "" ∨ qiniuUrlPrefix config = "" →
   (failure = None →
    uploadFile config dirname resolve failure ctx d =
      (Returned (Url ("/" ++ fileName (data ctx))), d')) ∧
   (∀ message, failure = Some message →
    uploadFile config dirname resolve failure ctx d =
      (Returned (Failure ("上传文件失败:" ++ message)),
       mkDisk (writes d') (console d ++ [message])))).
Proof.
  intros path d'. unfold uploadFile, tryCatch, fs_writeFile, console_error.
  run_handler. split.
  - intros (Hkey & Hbucket & Hprefix).
    by rewrite (eqb_false _ _ Hkey), (eqb_false _ _ Hbucket), (eqb_false _ _ Hprefix).
  - intros Hopen.
    assert ((qiniuAccessKey config =? "") || (qiniuBucket config =? "")
            || (qiniuBucket config =? "") || (qiniuUrlPrefix config =? "") = true)
      as ->.
    { destruct Hopen as [-> | [-> | ->]]; cbn; by rewrite ?orb_true_r. }
    split; [by intros -> | by intros message ->].
Qed.

(** The bucket is not set: a file is written; a write that fails with
    'EACCES' is reported in the reply. The paths are joined as they are
    here, in place of [path.resolve]. *)
Lemma uploadFile_cases_witness :
  let config := mkConfig "key" "" "https://cdn.example/" in
  let ctx := mkContext (mkUpload "a.png" "PNG") admin in
  let resolve := λ dir rel : string, dir ++ "/" ++ rel in
  uploadFile config "/app/server/routes" resolve None ctx (mkDisk [] []) =
    (Returned (Url "/a.png"),
     mkDisk [("/app/server/routes/../../public/a.png", "PNG")] []) ∧
  outcome (uploadFile config "/app/server/routes" resolve (Some "EACCES") ctx
             (mkDisk [] [])) =
    Returned (Failure "上传文件失败:EACCES").
Proof.
  intros config ctx resolve.
  destruct (uploadFile_cases config "/app/server/routes" resolve None ctx (mkDisk [] []))
    as [_ Hopen].
  destruct Hopen as [Hdone _]; [right; by left|].
  destruct (uploadFile_cases config "/app/server/routes" resolve (Some "EACCES") ctx
              (mkDisk [] [])) as [_ Hopen'].
  destruct Hopen' as [_ Hfail]; [right; by left|].
  split; [by apply Hdone|]. by rewrite (Hfail "EACCES").
Defined.

(** * [searchExpression] *)

(** ** The matcher *)

Lemma plusK_sound class k s m :
  plusK class k s = Some m →
  ∃ run s', s = (run ++ s')%list ∧ run ≠ [] ∧
            Forall (λ c, class c = true) run ∧ k s' = Some m.
Proof.
  revert m. induction s as [|c s IH]; intros m; cbn; [done|].
  destruct (class c) eqn:Hc; [|done].
  destruct (plusK class k s) as [m'|] eqn:Hmore.
  - intros [= <-]. destruct (IH m' eq_refl) as (run & s' & -> & _ & Hrun & Hk).
    exists (c :: run), s'. split_and!; [done | done | by constructor | done].
  - intros Hk. exists [c], s. split_and!; [done | done | by repeat constructor | done].
Qed.

Lemma plusGroupK_sound class k s : ∀ taken m,
  plusGroupK class k taken s = Some m →
  ∃ run s', s = (run ++ s')%list ∧ run ≠ [] ∧
            Forall (λ c, class c = true) run ∧ k (taken ++ run)%list s' = Some m.
Proof.
  induction s as [|c s IH]; intros taken m; cbn; [done|].
  destruct (class c) eqn:Hc; [|done].
  destruct (plusGroupK class k (taken ++ [c]) s) as [m'|] eqn:Hmore.
  - intros [= <-]. destruct (IH _ m' Hmore) as (run & s' & -> & _ & Hrun & Hk).
    exists (c :: run), s'. rewrite <- (assoc_L (++)) in Hk.
    split_and!; [done | done | by constructor | done].
  - intros Hk. exists [c], s. split_and!; [done | done | by repeat constructor | done].
Qed.




(** What is left after a match is an end of the input. *)
Lemma matchHere_rest pattern : ∀ captured s captured' rest,
  matchHere pattern captured s = Some (captured', rest) →
  ∃ text, s = (text ++ rest)%list.
Proof.
  induction pattern as [|atom pattern IH]; intros captured s captured' rest; cbn.
  - intros [= _ ->]. by exists [].
  - destruct atom as [c | c | class | class].
    + destruct s as [|x s]; [done|]. case (x =? c)%N; [|done].
      intros (text & ->)%IH. by exists (x :: text).
    + assert (matchHere pattern captured s = Some (captured', rest) →
              ∃ text, s = (text ++ rest)%list) as Hskip by apply IH.
      destruct s as [|x s]; [done|]. case (x =? c)%N; [|done].
      destruct (matchHere pattern captured s) as [[captured'' rest']|] eqn:Hm; [|done].
      intros [= -> ->]. apply IH in Hm as (text & ->). by exists (x :: text).
    + intros (run & s' & -> & _ & _ & (text & ->)%IH)%plusK_sound.
      exists (run ++ text)%list. by rewrite (assoc_L (++)).
    + intros (run & s' & -> & _ & _ & (text & ->)%IH)%plusGroupK_sound.
      exists (run ++ text)%list. by rewrite (assoc_L (++)).
Qed.

Lemma regexExec_sound pattern s : ∀ found,
  regexExec pattern s = Some found →
  ∃ before,
    s = (before ++ matched found ++ after found)%list ∧
    matchHere pattern None (matched found ++ after found) =
      Some (group1 found, after found).
Proof.
  induction s as [|x s IH]; intros found; cbn [regexExec].
  - destruct (matchHere pattern None []) as [[captured rest]|] eqn:Hm; [|done].
    intros [= <-]. cbn. destruct (matchHere_rest _ _ _ _ _ Hm) as (text & Htext).
    symmetry in Htext. apply app_eq_nil in Htext as [-> ->]. by exists [].
  - destruct (matchHere pattern None (x :: s)) as [[captured rest]|] eqn:Hm.
    + intros [= <-]. cbn [matched group1 after].
      destruct (matchHere_rest _ _ _ _ _ Hm) as (text & Htext).
      change (S (length s)) with (length (x :: s)).
      assert (take (length (x :: s) - length rest) (x :: s) = text) as ->.
      { rewrite Htext, length_app, Nat.add_sub. by rewrite take_app_length. }
      exists []. by rewrite <- Htext.
    + intros (before & -> & Hm')%IH. by exists (x :: before).
Qed.

Lemma regexExec_length pattern s found :
  regexExec pattern s = Some found →
  (length (matched found) + length (after found) ≤ length s)%nat.
Proof.
  intros (before & Hs & _)%regexExec_sound.
  apply (f_equal length) in Hs. rewrite !length_app in Hs. lia.
Qed.

(** The number of rounds that [matchAll] allows is enough: more rounds find
    nothing more. *)
Lemma matchAllFrom_enough pattern rounds : ∀ rounds' s,
  length s < rounds → length s < rounds' →
  matchAllFrom rounds pattern s = matchAllFrom rounds' pattern s.
Proof.
  induction rounds as [|rounds IH]; intros rounds' s Hn Hn'; [lia|].
  destruct rounds' as [|rounds']; [lia|]. cbn [matchAllFrom].
  destruct (regexExec pattern s) as [found|] eqn:Hfound; [|done].
  pose proof (regexExec_length _ _ _ Hfound) as Hlen. f_equal. revert Hlen.
  destruct (matched found) as [|c text], (after found) as [|x rest]; cbn [length];
    intros Hlen; try done; apply IH; cbn [length]; lia.
Qed.


(** ** The three patterns *)












(** ** Reading back a page *)






(** ** When nothing is returned *)


